(** * Concurrency-FileProcessor: worker pool, autoscaler and shutdown protocol

    A shallow embedding of [fileprocessor/main.go].  Every goroutine of the
    program (main, the signal handler, the metrics reporter, the worker
    autoscaler, the directory walker and each worker) is a small sequential
    program with its own program counter; the shared objects (the context,
    the [jobs] channel, the wait group, the two atomic counters, the error
    mutex, the error slice and standard output) live in one shared store.  A
    scheduler event names the goroutine that moves and, where the goroutine
    stands at a [select], the case that fires; a case that is not ready, like
    any operation that has to wait, yields [Block].

    One step is one operation on a shared object (a send, a receive, a
    close, an operation of the wait group, an atomic add, a lock, an unlock,
    an append to the error slice, a line printed, a call of [cancel]) with
    the local computation around it.  Some groupings are coarser: [wg.Add(1)]
    is taken together with the [go] statement that follows it; the body of an
    autoscaler tick, once [len(jobs)] is sampled, is one step; so are the
    loads and the line of a reporter tick, a call of [processFile] that
    returns, each group of lines of the summary (lines 87 and 88, 89, 91 to
    96), and the line a worker prints on [ctx.Done()] with its deferred
    [wg.Done()].  The deferred [cancel()] of [main] and the end of the
    process are two steps: between them the other goroutines run under a
    cancelled context; and the signal goroutine announces the signal in one
    step and calls [cancel()] in the next.

    The semantics is an interleaving one without a clock: a ticker may fire
    at any moment and [time.Sleep] is a no-op.  The environment supplies the
    entries [filepath.Walk] visits and, for each path, what [os.Open] and
    [io.Copy] do on it: fail, deliver the content with its digest, or never
    return (a FIFO nobody writes to, an endless device).  Lines of output are
    kept as data, not formatted; the goroutine count in the metrics line, a
    figure of the Go runtime, is left out. *)

From Stdlib Require Import ZArith Lia Bool.
From stdpp Require Import base list strings.

Local Open Scope Z_scope.

(** ** Go primitives *)

(** Go's [int] and [int64] on the 64-bit targets: two's complement with
    wrap-around. *)
Module Int64.
Definition min_int : Z := - 2 ^ 63.
Definition max_int : Z := 2 ^ 63 - 1.
Definition wrap (z : Z) : Z := (z + 2 ^ 63) mod 2 ^ 64 - 2 ^ 63.
Definition add (x y : Z) : Z := wrap (x + y).
Definition sub (x y : Z) : Z := wrap (x - y).
Definition in_range (z : Z) : Prop := min_int <= z <= max_int.
End Int64.

(** The outcome of one operation of a goroutine: it completes, it cannot
    proceed yet, or it panics. *)
Inductive Res (A : Type) : Type :=
| Ready (a : A)
| Block
| Panic.
Arguments Ready {A} a.
Arguments Block {A}.
Arguments Panic {A}.

Definition Res_bind {A B : Type} (m : Res A) (k : A -> Res B) : Res B :=
  match m with
  | Ready a => k a
  | Block => Block
  | Panic => Panic
  end.

Notation "x <- m ;; k" := (Res_bind m (fun x => k))
  (at level 20, m at level 99, k at level 200, only parsing).
Notation "' pat <- m ;; k" := (Res_bind m (fun pat => k))
  (at level 20, pat pattern, m at level 99, k at level 200, only parsing).

(** Error values.  [context.Canceled] is compared by identity in the
    walker; every other error is carried by its message. *)
Inductive GoErr : Type :=
| ErrCanceled
| ErrMsg (msg : string).

(** A buffered [chan string]. *)
Record Chan : Type := mkChan {
  buf : list string;
  cap : Z;
  closed : bool
}.

Definition chan_make (n : Z) : Chan := mkChan [] n false.

Definition chan_len (c : Chan) : Z := Z.of_nat (length (buf c)).

(** [c <- v]: panics on a closed channel, blocks on a full one. *)
Definition chan_send (c : Chan) (v : string) : Res Chan :=
  if closed c then Panic
  else if chan_len c <? cap c then Ready (mkChan (buf c ++ [v]) (cap c) (closed c))
  else Block.

(** [v, ok := <-c]: a buffered value with [ok = true]; on a closed and
    drained channel the zero value with [ok = false]; otherwise it blocks. *)
Definition chan_recv (c : Chan) : Res (string * bool * Chan) :=
  match buf c with
  | v :: rest => Ready (v, true, mkChan rest (cap c) (closed c))
  | [] => if closed c then Ready (EmptyString, false, c) else Block
  end.

(** [close(c)]: panics when [c] is closed already. *)
Definition chan_close (c : Chan) : Res Chan :=
  if closed c then Panic else Ready (mkChan (buf c) (cap c) true).

(** [sync.WaitGroup]: [Add] panics on a negative counter, [Wait] returns
    when the counter is zero. *)
Definition wg_add (counter delta : Z) : Res Z :=
  if counter + delta <? 0 then Panic else Ready (counter + delta).

Definition wg_done (counter : Z) : Res Z := wg_add counter (-1).

Definition wg_wait (counter : Z) : Res unit :=
  if counter =? 0 then Ready tt else Block.

(** ** The environment: the directory tree and its files *)

(** What [os.Open] followed by [io.Copy] into the hasher does on a path.
    The digest of a readable file is the hex string the hasher yields.  On a
    FIFO without a writer [os.Open] does not return, on an endless device
    [io.Copy] does not: [Hangs]. *)
Inductive FileStatus : Type :=
| OpenFails (cause : string)
| ReadFails (cause : string)
| Readable (digest : string)
| Hangs.

(** One call of the [filepath.Walk] callback: the path, the per-entry error
    handed to the callback, and [info.IsDir()]. *)
Record WalkEntry : Type := mkEntry {
  we_path : string;
  we_err : option string;
  we_isDir : bool
}.

Record Config : Type := mkConfig {
  dir : list WalkEntry;          (* the entries [filepath.Walk] visits under the root, in order *)
  fsys : string -> FileStatus;   (* the files behind the paths *)
  initWorkers : Z                (* the [-workers] flag *)
}.

(** ** Lines written to standard output *)

Inductive Line : Type :=
| LShutdownSignal
| LWorkerDown (id : Z)
| LProcessed (path hash : string)
| LMetrics (processed failed queueLength : Z)
| LReporterDown
| LSpawned (workerID total : Z)
| LReducing (total : Z)
| LWalkError (e : GoErr)
| LComplete
| LFilesProcessed (n : Z)
| LFilesFailed (n : Z)
| LSomeErrors
| LError (e : GoErr).

(** ** The shared store *)

Record Metrics : Type := mkMetrics {
  processed : Z;
  failed : Z
}.

Record Shared : Type := mkShared {
  cancelled : bool;       (* ctx: [ctx.Done()] is closed *)
  jobs : Chan;
  wg : Z;
  metrics : Metrics;
  errMu : bool;           (* the mutex is held *)
  errors : list GoErr;
  stdout : list Line
}.

Definition set_cancelled (v : bool) (sh : Shared) : Shared :=
  mkShared v (jobs sh) (wg sh) (metrics sh) (errMu sh) (errors sh) (stdout sh).
Definition set_jobs (v : Chan) (sh : Shared) : Shared :=
  mkShared (cancelled sh) v (wg sh) (metrics sh) (errMu sh) (errors sh) (stdout sh).
Definition set_wg (v : Z) (sh : Shared) : Shared :=
  mkShared (cancelled sh) (jobs sh) v (metrics sh) (errMu sh) (errors sh) (stdout sh).
Definition set_metrics (v : Metrics) (sh : Shared) : Shared :=
  mkShared (cancelled sh) (jobs sh) (wg sh) v (errMu sh) (errors sh) (stdout sh).
Definition set_errMu (v : bool) (sh : Shared) : Shared :=
  mkShared (cancelled sh) (jobs sh) (wg sh) (metrics sh) v (errors sh) (stdout sh).
Definition set_errors (v : list GoErr) (sh : Shared) : Shared :=
  mkShared (cancelled sh) (jobs sh) (wg sh) (metrics sh) (errMu sh) v (stdout sh).
Definition print (ls : list Line) (sh : Shared) : Shared :=
  mkShared (cancelled sh) (jobs sh) (wg sh) (metrics sh) (errMu sh) (errors sh)
           (stdout sh ++ ls).

(** ** The goroutines *)

(** The case of a [select] that fires: [<-ctx.Done()] or the other
    communication (a receive from [jobs], a send to [jobs], a tick). *)
Inductive Branch : Type := CaseDone | CaseComm.

(** *** [processFile] (lines 136 to 154)

    The error of [os.Open] or [io.Copy] wrapped with the path, or [nil] after
    the line with the digest is printed.  The function takes no context: a
    call that blocks in [os.Open] or [io.Copy] blocks for good. *)

Definition processFile (fs : string -> FileStatus) (path : string)
  : Res (option GoErr * list Line) :=
  match fs path with
  | OpenFails cause => Ready (Some (ErrMsg ("open " +:+ path +:+ ": " +:+ cause)), [])
  | ReadFails cause => Ready (Some (ErrMsg ("hash " +:+ path +:+ ": " +:+ cause)), [])
  | Readable hash => Ready (None, [LProcessed path hash])
  | Hangs => Block
  end.

(** *** [worker] (lines 99 to 134) *)

Inductive WorkerPc : Type :=
| WSelect                       (* at the [select] *)
| WJob (path : string)          (* received [path], inside [processFile] *)
| WResult (err : option GoErr)  (* [processFile] returned, counter not yet updated *)
| WLock (err : GoErr)           (* [failed] incremented, about to [errMu.Lock()] *)
| WAppend (err : GoErr)         (* holds the mutex, about to append *)
| WUnlock                       (* appended, about to [errMu.Unlock()] *)
| WExited.                      (* returned; the deferred [wg.Done()] has run *)

Record Worker : Type := mkWorker {
  w_id : Z;
  w_pc : WorkerPc
}.

(** The deferred [wg.Done()] on either [return]. *)
Definition worker_return (sh : Shared) : Res (WorkerPc * Shared) :=
  c <- wg_done (wg sh) ;;
  Ready (WExited, set_wg c sh).

Definition worker (fs : string -> FileStatus) (b : Branch) (id : Z)
    (pc : WorkerPc) (sh : Shared) : Res (WorkerPc * Shared) :=
  match pc with
  | WSelect =>
    match b with
    | CaseDone =>
      if cancelled sh then worker_return (print [LWorkerDown id] sh) else Block
    | CaseComm =>
      '(path, ok, ch) <- chan_recv (jobs sh) ;;
      if negb ok then worker_return sh
      else Ready (WJob path, set_jobs ch sh)
    end
  | WJob path =>
    '(err, out) <- processFile fs path ;;
    Ready (WResult err, print out sh)
  | WResult (Some err) =>
    Ready (WLock err,
           set_metrics (mkMetrics (processed (metrics sh))
                                  (Int64.add (failed (metrics sh)) 1)) sh)
  | WResult None =>
    Ready (WSelect,
           set_metrics (mkMetrics (Int64.add (processed (metrics sh)) 1)
                                  (failed (metrics sh))) sh)
  | WLock err =>
    if errMu sh then Block else Ready (WAppend err, set_errMu true sh)
  | WAppend err =>
    Ready (WUnlock, set_errors (errors sh ++ [err]) sh)
  | WUnlock =>
    if errMu sh then Ready (WSelect, set_errMu false sh) else Panic
  | WExited => Block
  end.

(** *** [metricsReporter] (lines 157 to 176) *)

Inductive ReporterPc : Type := RNotStarted | RSelect | RExited.

Definition metricsReporter (b : Branch) (pc : ReporterPc) (sh : Shared)
  : Res (ReporterPc * Shared) :=
  match pc with
  | RSelect =>
    match b with
    | CaseDone =>
      if cancelled sh then Ready (RExited, print [LReporterDown] sh) else Block
    | CaseComm =>
      Ready (RSelect,
             print [LMetrics (processed (metrics sh)) (failed (metrics sh))
                             (chan_len (jobs sh))] sh)
    end
  | RNotStarted | RExited => Block
  end.

(** *** [workerAutoscaler] (lines 179 to 214) *)

Definition maxWorkers : Z := 20.
Definition minWorkers : Z := 2.

Inductive ScalerPc : Type :=
| SNotStarted
| SSelect (workerID activeWorkers : Z)
| STick (queueLength workerID activeWorkers : Z)  (* [len(jobs)] sampled *)
| SExited.

(** [go worker(ctx, id, ...)] after [wg.Add(1)]. *)
Definition spawn (id : Z) (sh : Shared) : Res (Worker * Shared) :=
  c <- wg_add (wg sh) 1 ;;
  Ready (mkWorker id WSelect, set_wg c sh).

(** The loop [for i := 0; i < add && activeWorkers < maxWorkers; i++]; it
    runs at most [add] times, which is the fuel. *)
Fixpoint scaleUp (fuel : nat) (add i workerID activeWorkers : Z) (sh : Shared)
    (spawned : list Worker) : Res (Z * Z * Shared * list Worker) :=
  match fuel with
  | O => Ready (workerID, activeWorkers, sh, spawned)
  | S fuel' =>
    if (i <? add) && (activeWorkers <? maxWorkers) then
      let workerID' := Int64.add workerID 1 in
      '(w, sh') <- spawn workerID' sh ;;
      let activeWorkers' := Int64.add activeWorkers 1 in
      scaleUp fuel' add (Int64.add i 1) workerID' activeWorkers'
              (print [LSpawned workerID' activeWorkers'] sh') (spawned ++ [w])
    else Ready (workerID, activeWorkers, sh, spawned)
  end.

(** The body of the [case <-ticker.C] once [queueLength] is sampled. *)
Definition scalerTick (queueLength workerID activeWorkers : Z) (sh : Shared)
  : Res (ScalerPc * Shared * list Worker) :=
  '(workerID1, active1, sh1, spawned) <-
    (if (queueLength >? 50) && (activeWorkers <? maxWorkers)
     then let add := 2 in scaleUp (Z.to_nat add) add 0 workerID activeWorkers sh []
     else Ready (workerID, activeWorkers, sh, [])) ;;
  if (queueLength <? 10) && (active1 >? minWorkers)
  then let active2 := Int64.sub active1 1 in
       Ready (SSelect workerID1 active2, print [LReducing active2] sh1, spawned)
  else Ready (SSelect workerID1 active1, sh1, spawned).

Definition workerAutoscaler (b : Branch) (pc : ScalerPc) (sh : Shared)
  : Res (ScalerPc * Shared * list Worker) :=
  match pc with
  | SSelect workerID activeWorkers =>
    match b with
    | CaseDone => if cancelled sh then Ready (SExited, sh, []) else Block
    | CaseComm => Ready (STick (chan_len (jobs sh)) workerID activeWorkers, sh, [])
    end
  | STick queueLength workerID activeWorkers =>
    scalerTick queueLength workerID activeWorkers sh
  | SNotStarted | SExited => Block
  end.

(** *** The directory walker (the goroutine of lines 62 to 83) *)

Inductive ProducerPc : Type :=
| PNotStarted
| PWalking (rest : list WalkEntry)   (* [filepath.Walk] is about to visit [rest] *)
| PReturn (err : option GoErr)       (* [filepath.Walk] returned [err] *)
| PExited.                           (* the deferred [close(jobs)] has run *)

(** Is the entry sent to the queue?  The callback returns early on a
    per-entry error and on a directory. *)
Definition enqueued (e : WalkEntry) : bool :=
  match we_err e with
  | Some _ => false
  | None => negb (we_isDir e)
  end.

Definition walker (b : Branch) (pc : ProducerPc) (sh : Shared)
  : Res (ProducerPc * Shared) :=
  match pc with
  | PWalking (e :: rest) =>
    match we_err e with
    | Some _ => Ready (PWalking rest, sh)
    | None =>
      if we_isDir e then Ready (PWalking rest, sh)
      else
        match b with
        | CaseComm =>
          ch <- chan_send (jobs sh) (we_path e) ;;
          Ready (PWalking rest, set_jobs ch sh)
        | CaseDone =>
          if cancelled sh then Ready (PReturn (Some ErrCanceled), sh) else Block
        end
    end
  | PWalking [] => Ready (PReturn None, sh)
  | PReturn err =>
    let sh1 :=
      match err with
      | Some ErrCanceled | None => sh
      | Some e => print [LWalkError e] sh
      end in
    ch <- chan_close (jobs sh1) ;;
    Ready (PExited, set_jobs ch sh1)
  | PNotStarted | PExited => Block
  end.

(** *** [main] (lines 50 to 97) and the signal goroutine (lines 36 to 40) *)

Inductive MainPc : Type :=
| MStart                 (* line 50: about to start the reporter *)
| MSpawn (i : Z)         (* line 53: the loop test with counter [i] *)
| MScaler                (* line 59 *)
| MWalk                  (* line 62 *)
| MWait                  (* line 85: [wg.Wait()] *)
| MPrintProcessed        (* lines 87 and 88 *)
| MPrintFailed           (* line 89 *)
| MPrintErrors           (* lines 91 to 96 *)
| MReturn                (* line 97: about to run the deferred [cancel()] *)
| MExit                  (* [cancel()] has run, [main] is about to return *)
| MDone.                 (* [main] returned: the process is gone *)

Inductive SigPc : Type :=
| SigWaiting             (* line 37: at [<-sigChan] *)
| SigCancel              (* the signal is received and announced, line 39 is next *)
| SigDone.               (* [cancel()] has run: the goroutine is gone *)

Record State : Type := mkState {
  shared : Shared;
  mainPc : MainPc;
  sigPc : SigPc;
  reporter : ReporterPc;
  scaler : ScalerPc;
  producer : ProducerPc;
  workers : list Worker
}.

Definition set_shared (v : Shared) (s : State) : State :=
  mkState v (mainPc s) (sigPc s) (reporter s) (scaler s) (producer s) (workers s).
Definition set_mainPc (v : MainPc) (s : State) : State :=
  mkState (shared s) v (sigPc s) (reporter s) (scaler s) (producer s) (workers s).
Definition set_sigPc (v : SigPc) (s : State) : State :=
  mkState (shared s) (mainPc s) v (reporter s) (scaler s) (producer s) (workers s).
Definition set_reporter (v : ReporterPc) (s : State) : State :=
  mkState (shared s) (mainPc s) (sigPc s) v (scaler s) (producer s) (workers s).
Definition set_scaler (v : ScalerPc) (s : State) : State :=
  mkState (shared s) (mainPc s) (sigPc s) (reporter s) v (producer s) (workers s).
Definition set_producer (v : ProducerPc) (s : State) : State :=
  mkState (shared s) (mainPc s) (sigPc s) (reporter s) (scaler s) v (workers s).
Definition set_workers (v : list Worker) (s : State) : State :=
  mkState (shared s) (mainPc s) (sigPc s) (reporter s) (scaler s) (producer s) v.

(** The lines of the final summary for the error slice. *)
Definition errorLines (errs : list GoErr) : list Line :=
  if Z.of_nat (length errs) >? 0 then LSomeErrors :: map LError errs else [].

Definition main (cfg : Config) (s : State) : Res State :=
  let sh := shared s in
  match mainPc s with
  | MStart => Ready (set_mainPc (MSpawn 0) (set_reporter RSelect s))
  | MSpawn i =>
    if i <? initWorkers cfg then
      '(w, sh') <- spawn i sh ;;
      Ready (set_mainPc (MSpawn (Int64.add i 1))
               (set_workers (workers s ++ [w]) (set_shared sh' s)))
    else Ready (set_mainPc MScaler s)
  | MScaler =>
    Ready (set_mainPc MWalk
             (set_scaler (SSelect (initWorkers cfg) (initWorkers cfg)) s))
  | MWalk => Ready (set_mainPc MWait (set_producer (PWalking (dir cfg)) s))
  | MWait =>
    _ <- wg_wait (wg sh) ;;
    Ready (set_mainPc MPrintProcessed s)
  | MPrintProcessed =>
    Ready (set_mainPc MPrintFailed
             (set_shared (print [LComplete; LFilesProcessed (processed (metrics sh))] sh) s))
  | MPrintFailed =>
    Ready (set_mainPc MPrintErrors
             (set_shared (print [LFilesFailed (failed (metrics sh))] sh) s))
  | MPrintErrors =>
    Ready (set_mainPc MReturn (set_shared (print (errorLines (errors sh)) sh) s))
  | MReturn => Ready (set_mainPc MExit (set_shared (set_cancelled true sh) s))
  | MExit => Ready (set_mainPc MDone s)
  | MDone => Block
  end.

(** The goroutine of lines 36 to 40: a signal arrives and is announced,
    then [cancel()]. *)
Definition signal_step (s : State) : Res State :=
  match sigPc s with
  | SigWaiting =>
    Ready (set_sigPc SigCancel (set_shared (print [LShutdownSignal] (shared s)) s))
  | SigCancel =>
    Ready (set_sigPc SigDone (set_shared (set_cancelled true (shared s)) s))
  | SigDone => Block
  end.

(** ** The scheduler *)

Inductive Event : Type :=
| EvSignal
| EvMain
| EvReporter (b : Branch)
| EvScaler (b : Branch)
| EvProducer (b : Branch)
| EvWorker (i : nat) (b : Branch).

Definition exited (s : State) : bool :=
  match mainPc s with MDone => true | _ => false end.

Definition step (cfg : Config) (ev : Event) (s : State) : Res State :=
  if exited s then Block
  else
    match ev with
    | EvSignal => signal_step s
    | EvMain => main cfg s
    | EvReporter b =>
      '(pc, sh) <- metricsReporter b (reporter s) (shared s) ;;
      Ready (set_reporter pc (set_shared sh s))
    | EvScaler b =>
      '(pc, sh, spawned) <- workerAutoscaler b (scaler s) (shared s) ;;
      Ready (set_scaler pc (set_workers (workers s ++ spawned) (set_shared sh s)))
    | EvProducer b =>
      '(pc, sh) <- walker b (producer s) (shared s) ;;
      Ready (set_producer pc (set_shared sh s))
    | EvWorker i b =>
      match workers s !! i with
      | Some w =>
        '(pc, sh) <- worker (fsys cfg) b (w_id w) (w_pc w) (shared s) ;;
        Ready (set_workers (<[i := mkWorker (w_id w) pc]> (workers s)) (set_shared sh s))
      | None => Block
      end
    end.

Fixpoint run (cfg : Config) (evs : list Event) (s : State) : Res State :=
  match evs with
  | [] => Ready s
  | ev :: evs' => s' <- step cfg ev s ;; run cfg evs' s'
  end.

(** The state when [main] reaches line 50: the context, the signal
    goroutine, the channel of capacity 100 and the zero-valued wait group,
    metrics, mutex and error slice exist. *)
Definition init : State :=
  mkState (mkShared false (chan_make 100) 0 (mkMetrics 0 0) false [] [])
          MStart SigWaiting RNotStarted SNotStarted PNotStarted [].

Definition reachable (cfg : Config) (s : State) : Prop :=
  exists evs, run cfg evs init = Ready s.

(** ** Observations on states and schedules *)

Fixpoint wcount (f : WorkerPc -> nat) (ws : list Worker) : nat :=
  match ws with
  | [] => O
  | w :: ws' => (f (w_pc w) + wcount f ws')%nat
  end.

Definition is_live (pc : WorkerPc) : nat :=
  match pc with WExited => 0 | _ => 1 end%nat.

Definition is_exited (pc : WorkerPc) : nat :=
  match pc with WExited => 1 | _ => 0 end%nat.

(** The worker holds [errMu]. *)
Definition is_holder (pc : WorkerPc) : nat :=
  match pc with WAppend _ | WUnlock => 1 | _ => 0 end%nat.

(** The worker has incremented [failed] and not yet appended its error. *)
Definition is_pending (pc : WorkerPc) : nat :=
  match pc with WLock _ | WAppend _ => 1 | _ => 0 end%nat.

(** The worker is inside the loop body. *)
Definition is_busy (pc : WorkerPc) : nat :=
  match pc with WSelect | WExited => 0 | _ => 1 end%nat.

(** The worker has received a job and not yet updated a counter. *)
Definition is_inflight (pc : WorkerPc) : nat :=
  match pc with WJob _ | WResult _ => 1 | _ => 0 end%nat.

(** [processFile] succeeds on the path; it returns an error; it returns. *)
Definition ok_path (fs : string -> FileStatus) (path : string) : bool :=
  match fs path with Readable _ => true | _ => false end.

Definition bad_path (fs : string -> FileStatus) (path : string) : bool :=
  match fs path with OpenFails _ | ReadFails _ => true | _ => false end.

Definition returns (fs : string -> FileStatus) (path : string) : bool :=
  match fs path with Hangs => false | _ => true end.

Definition inflight_ok (fs : string -> FileStatus) (pc : WorkerPc) : nat :=
  match pc with
  | WJob path => if ok_path fs path then 1 else 0
  | WResult None => 1
  | _ => 0
  end%nat.

Definition inflight_bad (fs : string -> FileStatus) (pc : WorkerPc) : nat :=
  match pc with
  | WJob path => if bad_path fs path then 1 else 0
  | WResult (Some _) => 1
  | _ => 0
  end%nat.

(** The worker is inside a call of [processFile] that does not return. *)
Definition is_hung (fs : string -> FileStatus) (pc : WorkerPc) : nat :=
  match pc with
  | WJob path => if returns fs path then 0 else 1
  | _ => 0
  end%nat.

Fixpoint countp (f : string -> bool) (l : list string) : nat :=
  match l with
  | [] => O
  | x :: l' => ((if f x then 1 else 0) + countp f l')%nat
  end.

(** The paths the walker sends for a list of entries, in order. *)
Fixpoint files (l : list WalkEntry) : list string :=
  match l with
  | [] => []
  | e :: l' => if enqueued e then we_path e :: files l' else files l'
  end.

(** The paths the walker has still to send. *)
Definition todo (cfg : Config) (pc : ProducerPc) : list string :=
  match pc with
  | PNotStarted => files (dir cfg)
  | PWalking rest => files rest
  | PReturn _ | PExited => []
  end.

(** The number of files the walk enumerates without error that
    [processFile] hashes, and the number on which it returns an error. *)
Definition validFiles (cfg : Config) : nat := countp (ok_path (fsys cfg)) (files (dir cfg)).
Definition unreadableFiles (cfg : Config) : nat := countp (bad_path (fsys cfg)) (files (dir cfg)).

(** The lines of the final summary among the output. *)
Definition is_summary (l : Line) : bool :=
  match l with
  | LComplete | LFilesProcessed _ | LFilesFailed _ | LSomeErrors | LError _ => true
  | _ => false
  end.

Fixpoint summary (out : list Line) : list Line :=
  match out with
  | [] => []
  | l :: out' => if is_summary l then l :: summary out' else summary out'
  end.

(** [wg.Wait()] has returned. *)
Definition post_wait (pc : MainPc) : bool :=
  match pc with
  | MPrintProcessed | MPrintFailed | MPrintErrors | MReturn | MExit | MDone => true
  | _ => false
  end.

(** The deferred [cancel()] of [main] has run. *)
Definition main_cancelled (pc : MainPc) : bool :=
  match pc with
  | MExit | MDone => true
  | _ => false
  end.

(** The flag is an [int], and the walk visits fewer entries than an
    [int64] counts. *)
Definition valid_config (cfg : Config) : Prop :=
  Int64.in_range (initWorkers cfg) /\ Z.of_nat (length (dir cfg)) <= Int64.max_int.

(** No signal has been received: the run is not interrupted. *)
Definition uncancelled (s : State) : Prop := sigPc s = SigWaiting.

(** Every file the walk sends to the queue is one on which [processFile]
    returns. *)
Definition all_return (cfg : Config) : Prop :=
  Forall (fun path => returns (fsys cfg) path = true) (files (dir cfg)).

(** No worker is inside a call of [processFile] that does not return. *)
Definition inflight_return (cfg : Config) (s : State) : Prop :=
  wcount (is_hung (fsys cfg)) (workers s) = O.

(** Has [main] passed the [go] statement of the goroutine? *)
Definition reporter_started (pc : MainPc) : bool :=
  match pc with MStart => false | _ => true end.

Definition scaler_started (pc : MainPc) : bool :=
  match pc with MStart | MSpawn _ | MScaler => false | _ => true end.

Definition walker_started (pc : MainPc) : bool :=
  match pc with MStart | MSpawn _ | MScaler | MWalk => false | _ => true end.

(** The two counters together. *)
Definition counted (s : State) : Z :=
  processed (metrics (shared s)) + failed (metrics (shared s)).

(** Does the event make a worker receive a job from the queue? *)
Definition is_dequeue (s : State) (ev : Event) : bool :=
  match ev with
  | EvWorker i CaseComm =>
    match workers s !! i with
    | Some w =>
      match w_pc w, buf (jobs (shared s)) with
      | WSelect, _ :: _ => negb (exited s)
      | _, _ => false
      end
    | None => false
    end
  | _ => false
  end.

(** The number of jobs dequeued along a schedule. *)
Fixpoint dequeued (cfg : Config) (evs : list Event) (s : State) : nat :=
  match evs with
  | [] => O
  | ev :: evs' =>
    match step cfg ev s with
    | Ready s' => ((if is_dequeue s ev then 1 else 0) + dequeued cfg evs' s')%nat
    | _ => O
    end
  end.

(** The tracked worker count of the autoscaler, once it runs. *)
Definition tracked (s : State) : option Z :=
  match scaler s with
  | SSelect _ activeWorkers | STick _ _ activeWorkers => Some activeWorkers
  | SNotStarted | SExited => None
  end.

Definition tracked_le (bound : Z) (s : State) : bool :=
  match tracked s with
  | Some activeWorkers => activeWorkers <=? bound
  | None => true
  end.

(** The states a schedule visits. *)
Fixpoint trace (cfg : Config) (evs : list Event) (s : State) : list State :=
  s :: match evs with
       | [] => []
       | ev :: evs' =>
         match step cfg ev s with
         | Ready s' => trace cfg evs' s'
         | _ => []
         end
       end.

(** The workers a scale-up of [k] steps starts, given the last id used. *)
Fixpoint spawnedWorkers (k : nat) (workerID : Z) : list Worker :=
  match k with
  | O => []
  | S k' => mkWorker (Int64.add workerID 1) WSelect
              :: spawnedWorkers k' (Int64.add workerID 1)
  end.

(** The shared store with the wait-group counter raised by [k] and [out]
    printed. *)
Definition after_tick (k : Z) (out : list Line) (sh : Shared) : Shared :=
  mkShared (cancelled sh) (jobs sh) (wg sh + k) (metrics sh) (errMu sh) (errors sh)
           (stdout sh ++ out).

(** ** Invariants *)

(** The bookkeeping of the shared objects agrees with the goroutines: the
    wait group counts the workers that have not returned, the mutex is held
    by exactly the worker between [Lock] and [Unlock], the channel is closed
    exactly when the walker goroutine has finished, the queue respects its
    capacity, and the context is cancelled exactly when the signal goroutine
    or the deferred call of [main] has called [cancel]. *)
Definition inv_wiring (s : State) : Prop :=
  wg (shared s) = Z.of_nat (wcount is_live (workers s)) /\
  (if errMu (shared s) then 1 else 0)%nat = wcount is_holder (workers s) /\
  closed (jobs (shared s)) = match producer s with PExited => true | _ => false end /\
  cap (jobs (shared s)) = 100 /\
  chan_len (jobs (shared s)) <= 100 /\
  cancelled (shared s)
    = match sigPc s with SigDone => true | _ => main_cancelled (mainPc s) end /\
  match reporter s with RNotStarted => false | _ => true end = reporter_started (mainPc s) /\
  match scaler s with SNotStarted => false | _ => true end = scaler_started (mainPc s) /\
  match producer s with PNotStarted => false | _ => true end = walker_started (mainPc s).

(** The readable files that are not yet counted in [processed]: those
    received by a worker, those in the queue and those the walker has still
    to send; and likewise the unreadable ones for [failed]. *)
Definition pending_ok (cfg : Config) (s : State) : nat :=
  (wcount (inflight_ok (fsys cfg)) (workers s)
   + countp (ok_path (fsys cfg)) (buf (jobs (shared s)))
   + countp (ok_path (fsys cfg)) (todo cfg (producer s)))%nat.

Definition pending_bad (cfg : Config) (s : State) : nat :=
  (wcount (inflight_bad (fsys cfg)) (workers s)
   + countp (bad_path (fsys cfg)) (buf (jobs (shared s)))
   + countp (bad_path (fsys cfg)) (todo cfg (producer s)))%nat.

(** Conservation of jobs: every file the walk enumerates on which
    [processFile] returns is pending or counted, exactly once, unless a
    cancelled context made the walker drop the rest; and every failure
    counted is in the error slice or about to be. *)
Definition inv_count (cfg : Config) (s : State) : Prop :=
  0 <= processed (metrics (shared s)) /\
  0 <= failed (metrics (shared s)) /\
  processed (metrics (shared s)) + Z.of_nat (pending_ok cfg s)
    <= Z.of_nat (validFiles cfg) /\
  failed (metrics (shared s)) + Z.of_nat (pending_bad cfg s)
    <= Z.of_nat (unreadableFiles cfg) /\
  (cancelled (shared s) = false ->
   processed (metrics (shared s)) + Z.of_nat (pending_ok cfg s)
     = Z.of_nat (validFiles cfg) /\
   failed (metrics (shared s)) + Z.of_nat (pending_bad cfg s)
     = Z.of_nat (unreadableFiles cfg)) /\
  failed (metrics (shared s))
    = Z.of_nat (length (errors (shared s)) + wcount is_pending (workers s)).

(** The summary [main] has printed so far in a run without interrupt. *)
Definition expected_summary (cfg : Config) (s : State) : list Line :=
  let head := [LComplete; LFilesProcessed (Z.of_nat (validFiles cfg))] in
  let counts := head ++ [LFilesFailed (Z.of_nat (unreadableFiles cfg))] in
  match mainPc s with
  | MPrintFailed => head
  | MPrintErrors => counts
  | MReturn | MExit | MDone => counts ++ errorLines (errors (shared s))
  | _ => []
  end.

(** Draining: the initial pool is spawned before anything else runs the
    queue; under a context that is not cancelled a worker returns only from a
    closed and empty queue; and once [wg.Wait()] has returned in a run
    without interrupt that started with a worker, the queue stays closed and
    empty, every worker is idle or gone and the counters stay at the numbers
    of files, also after the deferred [cancel()]. *)
Definition inv_drain (cfg : Config) (s : State) : Prop :=
  match mainPc s with
  | MStart => workers s = []
  | MSpawn i => Z.of_nat (length (workers s)) = i /\ (i = 0 \/ i <= initWorkers cfg)
  | _ => initWorkers cfg <= Z.of_nat (length (workers s))
  end /\
  (cancelled (shared s) = false -> (0 < wcount is_exited (workers s))%nat ->
   closed (jobs (shared s)) = true /\ buf (jobs (shared s)) = []) /\
  (uncancelled s -> post_wait (mainPc s) = true -> 1 <= initWorkers cfg ->
   closed (jobs (shared s)) = true /\ buf (jobs (shared s)) = [] /\
   wcount is_busy (workers s) = O /\
   processed (metrics (shared s)) = Z.of_nat (validFiles cfg) /\
   failed (metrics (shared s)) = Z.of_nat (unreadableFiles cfg)) /\
  (uncancelled s -> 1 <= initWorkers cfg ->
   summary (stdout (shared s)) = expected_summary cfg s).

(** The counters of the autoscaler stay machine integers. *)
Definition inv_scaler (s : State) : Prop :=
  match scaler s with
  | SSelect _ activeWorkers | STick _ _ activeWorkers => Int64.in_range activeWorkers
  | SNotStarted | SExited => True
  end.

(** [e] is the error [processFile] returns on a file the walker sends. *)
Definition file_error (cfg : Config) (e : GoErr) : Prop :=
  exists path out,
    In path (files (dir cfg)) /\ processFile (fsys cfg) path = Ready (Some e, out).

Definition pc_paths (cfg : Config) (pc : WorkerPc) : Prop :=
  match pc with
  | WJob path => In path (files (dir cfg))
  | WResult (Some e) | WLock e | WAppend e => file_error cfg e
  | _ => True
  end.

(** Provenance: every path in the queue or held by a worker is a path the
    walker sends for the configured tree, and every error held by a worker
    or logged is the [processFile] error of such a path. *)
Definition inv_paths (cfg : Config) (s : State) : Prop :=
  Forall (fun path => In path (files (dir cfg))) (buf (jobs (shared s))) /\
  (forall path, In path (todo cfg (producer s)) -> In path (files (dir cfg))) /\
  Forall (fun w => pc_paths cfg (w_pc w)) (workers s) /\
  Forall (file_error cfg) (errors (shared s)).

(** What [filepath.Walk] may return to the walker goroutine: [nil] at the
    end of the walk, or the [ctx.Err()] of a cancelled context. *)
Definition inv_return (s : State) : Prop :=
  match producer s with
  | PReturn None => True
  | PReturn (Some e) => e = ErrCanceled /\ cancelled (shared s) = true
  | _ => True
  end.

(** ** Schedulers *)

(** The steps a worker still takes before it returns when it always picks
    [ctx.Done()] at the [select]. *)
Definition weight (pc : WorkerPc) : nat :=
  match pc with
  | WJob _ => 6
  | WResult _ => 5
  | WLock _ => 4
  | WAppend _ => 3
  | WUnlock => 2
  | WSelect => 1
  | WExited => 0
  end%nat.

(** The steps [main] still takes, counting two for each worker it has yet
    to spawn. *)
Definition main_weight (cfg : Config) (pc : MainPc) : nat :=
  match pc with
  | MStart => 10 + 2 * Z.to_nat (initWorkers cfg)
  | MSpawn i => 9 + 2 * Z.to_nat (initWorkers cfg - i)
  | MScaler => 8
  | MWalk => 7
  | MWait => 6
  | MPrintProcessed => 5
  | MPrintFailed => 4
  | MPrintErrors => 3
  | MReturn => 2
  | MExit => 1
  | MDone => 0
  end%nat.

Definition potential (cfg : Config) (s : State) : nat :=
  (main_weight cfg (mainPc s) + wcount weight (workers s))%nat.

(** Can the worker take a step when the mutex is in state [mu]? *)
Definition runnable (mu : bool) (pc : WorkerPc) : bool :=
  match pc with
  | WExited => false
  | WLock _ => negb mu
  | _ => true
  end.

(** The first worker that satisfies [ready], counting from [i]. *)
Fixpoint find_ready (ready : WorkerPc -> bool) (ws : list Worker) (i : nat) : option nat :=
  match ws with
  | [] => None
  | w :: ws' => if ready (w_pc w) then Some i else find_ready ready ws' (S i)
  end.

(** A scheduler for the shutdown: [main] runs until it waits; then the
    first worker that can move does, taking [ctx.Done()] at its [select];
    then [main] finishes. *)
Definition next_event (s : State) : Event :=
  match mainPc s with
  | MWait =>
    match find_ready (runnable (errMu (shared s))) (workers s) 0 with
    | Some i => EvWorker i CaseDone
    | None => EvMain
    end
  | _ => EvMain
  end.

(** The schedule a scheduler produces, for at most [fuel] steps. *)
Fixpoint drive (next : State -> Event) (cfg : Config) (fuel : nat) (s : State)
  : list Event :=
  match fuel with
  | O => []
  | S fuel' =>
    if exited s then []
    else
      let ev := next s in
      match step cfg ev s with
      | Ready s' => ev :: drive next cfg fuel' s'
      | _ => []
      end
  end.

Definition shutdown : Config -> nat -> State -> list Event := drive next_event.

(** The steps of the walker goroutine under a cancelled context when it
    takes [ctx.Done()] at the first file: the entries before that file, the
    return of [filepath.Walk], the deferred [close(jobs)]. *)
Fixpoint abandon (rest : list WalkEntry) : list Event :=
  match rest with
  | [] => [EvProducer CaseDone; EvProducer CaseDone]
  | e :: rest' =>
    EvProducer CaseDone
      :: (if enqueued e then [EvProducer CaseDone] else abandon rest')
  end.

(** Can the walker take its next step without waiting for room? *)
Definition walker_ready (s : State) : bool :=
  match producer s with
  | PWalking (e :: _) => negb (enqueued e) || (chan_len (jobs (shared s)) <? 100)
  | PWalking [] | PReturn _ => true
  | PNotStarted | PExited => false
  end.

(** Can the worker take a step by the receive case? *)
Definition receptive (sh : Shared) (pc : WorkerPc) : bool :=
  match pc with
  | WExited => false
  | WLock _ => negb (errMu sh)
  | WSelect => match buf (jobs sh) with [] => closed (jobs sh) | _ :: _ => true end
  | _ => true
  end.

(** A scheduler for a run to completion: [main] runs until it waits; then
    the walker moves whenever it can, otherwise the first worker that can,
    by the receive case; then [main] finishes. *)
Definition next_normal (s : State) : Event :=
  match mainPc s with
  | MWait =>
    if walker_ready s then EvProducer CaseComm
    else
      match find_ready (receptive (shared s)) (workers s) 0 with
      | Some i => EvWorker i CaseComm
      | None => EvMain
      end
  | _ => EvMain
  end.

(** The steps the walk still costs: one per entry, and for an entry that is
    sent the seven steps its job costs in the queue. *)
Fixpoint walk_weight (l : list WalkEntry) : nat :=
  match l with
  | [] => O
  | e :: l' => ((if enqueued e then 8 else 1) + walk_weight l')%nat
  end.

Definition walker_weight (cfg : Config) (pc : ProducerPc) : nat :=
  match pc with
  | PNotStarted => 2 + walk_weight (dir cfg)
  | PWalking rest => 2 + walk_weight rest
  | PReturn _ => 1
  | PExited => 0
  end%nat.

Definition work_left (cfg : Config) (s : State) : nat :=
  (potential cfg s + 7 * length (buf (jobs (shared s)))
   + walker_weight cfg (producer s))%nat.

(** ** Concrete runs *)

(** A file system in which ["bad"] cannot be opened, ["torn"] cannot be
    read to the end, ["fifo"] is a FIFO nobody writes to, and every other
    file hashes. *)
Definition fs1 (path : string) : FileStatus :=
  if String.eqb path "bad" then OpenFails "permission denied"
  else if String.eqb path "torn" then ReadFails "input/output error"
  else if String.eqb path "fifo" then Hangs
  else Readable "e3b0c442".

(** [n] regular files with the same content. *)
Definition goodFiles (n : nat) : list WalkEntry :=
  map (fun i => mkEntry (String (Ascii.ascii_of_nat (48 + i)) EmptyString) None false)
      (seq 0 n).

(** [n] files that cannot be opened. *)
Definition badFiles (n : nat) : list WalkEntry :=
  repeat (mkEntry "bad" None false) n.

Definition state_after (cfg : Config) (evs : list Event) : State :=
  match run cfg evs init with
  | Ready s => s
  | _ => init
  end.

(** [main] up to [wg.Wait()] with [n] initial workers. *)
Definition startup (n : nat) : list Event := repeat EvMain (n + 4).

(** Five workers, sixty files queued, depth sampled. *)
Definition cfg_up : Config := mkConfig (goodFiles 60) fs1 5.
Definition sched_up : list Event :=
  startup 5 ++ repeat (EvProducer CaseComm) 60 ++ [EvScaler CaseComm].
Definition st_up : State := Eval vm_compute in state_after cfg_up sched_up.

(** Four workers, five files queued, depth sampled. *)
Definition cfg_down : Config := mkConfig (goodFiles 5) fs1 4.
Definition sched_down : list Event :=
  startup 4 ++ repeat (EvProducer CaseComm) 5 ++ [EvScaler CaseComm].
Definition st_down : State := Eval vm_compute in state_after cfg_down sched_down.

(** No initial worker and one readable file: the walker queues the file,
    ends the walk and closes the queue; [wg.Wait()] returns at once. *)
Definition cfg_zero : Config := mkConfig (goodFiles 1) fs1 0.
Definition sched_zero : list Event :=
  startup 0 ++ repeat (EvProducer CaseComm) 3 ++ repeat EvMain 6.
Definition st_zero : State := Eval vm_compute in state_after cfg_zero sched_zero.

(** A tree with a directory, two good files, a file that cannot be opened,
    one that cannot be read, and an entry the walk cannot stat; two workers,
    a tick of the autoscaler and one of the reporter; no interrupt. *)
Definition cfg_mixed : Config :=
  mkConfig [mkEntry "." None true; mkEntry "a" None false; mkEntry "bad" None false;
            mkEntry "torn" None false; mkEntry "gone" (Some "lstat: no such file") false;
            mkEntry "b" None false]
           fs1 2.
Definition sched_mixed : list Event :=
  startup 2 ++ repeat (EvProducer CaseComm) 8
  ++ [EvScaler CaseComm; EvScaler CaseComm; EvReporter CaseComm]
  ++ repeat (EvWorker 0 CaseComm) 19 ++ [EvWorker 1 CaseComm]
  ++ repeat EvMain 6.
Definition st_mixed : State := Eval vm_compute in state_after cfg_mixed sched_mixed.

(** The walker stands at the entry that cannot be enumerated. *)
Definition st_gone : State :=
  Eval vm_compute in
    state_after cfg_mixed (startup 2 ++ repeat (EvProducer CaseComm) 4).

(** The run of [cfg_mixed] just before and just after the first worker
    finds the queue closed and empty. *)
Definition sched_drain : list Event :=
  startup 2 ++ repeat (EvProducer CaseComm) 8 ++ repeat (EvWorker 0 CaseComm) 18.
Definition st_drain : State := Eval vm_compute in state_after cfg_mixed sched_drain.
Definition st_drained : State :=
  Eval vm_compute in state_after cfg_mixed (sched_drain ++ [EvWorker 0 CaseComm]).

(** One worker that never runs and a queue filled to its capacity. *)
Definition cfg_full : Config := mkConfig (goodFiles 101) fs1 1.
Definition sched_full : list Event := startup 1 ++ repeat (EvProducer CaseComm) 100.
Definition st_full : State := Eval vm_compute in state_after cfg_full sched_full.

(** One worker, fifty-one unreadable files queued, then an interrupt: the
    worker returns, [wg.Wait()] returns, the autoscaler's ticker wins its
    [select] and spawns two workers, one of which receives a job and
    increments [failed] while [main] prints the summary. *)
Definition cfg_race : Config := mkConfig (badFiles 51) fs1 1.
Definition sched_race : list Event :=
  startup 1 ++ repeat (EvProducer CaseComm) 51
  ++ [EvSignal; EvSignal; EvWorker 0 CaseDone; EvMain;
      EvScaler CaseComm; EvScaler CaseComm;
      EvWorker 1 CaseComm; EvWorker 1 CaseComm; EvWorker 1 CaseComm;
      EvMain; EvMain; EvMain; EvMain; EvMain].
Definition st_race : State := Eval vm_compute in state_after cfg_race sched_race.

(** The same race without interrupt when the initial pool is empty. *)
Definition cfg_zero_race : Config := mkConfig (badFiles 51) fs1 0.
Definition sched_zero_race : list Event :=
  startup 0 ++ repeat (EvProducer CaseComm) 51
  ++ [EvScaler CaseComm; EvMain; EvScaler CaseComm;
      EvWorker 0 CaseComm; EvWorker 0 CaseComm; EvWorker 0 CaseComm;
      EvMain; EvMain; EvMain; EvMain; EvMain].
Definition st_zero_race : State :=
  Eval vm_compute in state_after cfg_zero_race sched_zero_race.

(** Twenty workers; two ticks on the still empty queue lower the tracked
    count to 18; the walker then queues fifty-one files and the next tick
    spawns two more workers. *)
Definition cfg_over : Config := mkConfig (goodFiles 51) fs1 20.
Definition sched_over : list Event :=
  startup 20
  ++ [EvScaler CaseComm; EvScaler CaseComm; EvScaler CaseComm; EvScaler CaseComm]
  ++ repeat (EvProducer CaseComm) 51
  ++ [EvScaler CaseComm; EvScaler CaseComm].
Definition st_over : State := Eval vm_compute in state_after cfg_over sched_over.

(** Thirty files queued, the walker in front of the next one, one worker in
    the middle of a job and one idle, then an interrupt. *)
Definition cfg_stop : Config := mkConfig (goodFiles 40) fs1 2.
Definition sched_stop : list Event :=
  startup 2 ++ repeat (EvProducer CaseComm) 31
  ++ [EvWorker 0 CaseComm; EvReporter CaseComm; EvSignal; EvSignal].
Definition st_stop : State := Eval vm_compute in state_after cfg_stop sched_stop.

(** The same run taken to the end of the process by the shutdown schedule:
    the walker is never scheduled again. *)
Definition sched_stopped : list Event :=
  sched_stop ++ shutdown cfg_stop (potential cfg_stop st_stop) st_stop.
Definition st_stopped : State := Eval vm_compute in state_after cfg_stop sched_stopped.

(** No initial worker, and [main] runs to its end before the walker
    goroutine gets to run. *)
Definition sched_unwalked : list Event := startup 0 ++ repeat EvMain 6.
Definition st_unwalked : State := Eval vm_compute in state_after cfg_zero sched_unwalked.

(** One worker and one FIFO: the worker receives the path and calls
    [processFile]; then the interrupt. *)
Definition cfg_hang : Config := mkConfig [mkEntry "fifo" None false] fs1 1.
Definition sched_hang : list Event :=
  startup 1 ++ [EvProducer CaseComm; EvWorker 0 CaseComm; EvSignal; EvSignal].
Definition st_hang : State := Eval vm_compute in state_after cfg_hang sched_hang.

(** ** Further observations *)

(** The paths a worker receives by the event, and along a schedule, in the
    order of the receives. *)
Definition received_by (s : State) (ev : Event) : list string :=
  if is_dequeue s ev then
    match buf (jobs (shared s)) with
    | path :: _ => [path]
    | [] => []
    end
  else [].

Fixpoint received (cfg : Config) (evs : list Event) (s : State) : list string :=
  match evs with
  | [] => []
  | ev :: evs' =>
    match step cfg ev s with
    | Ready s' => received_by s ev ++ received cfg evs' s'
    | _ => []
    end
  end.

(** The state with another standard output. *)
Definition set_stdout (out : list Line) (s : State) : State :=
  set_shared (mkShared (cancelled (shared s)) (jobs (shared s)) (wg (shared s))
                       (metrics (shared s)) (errMu (shared s)) (errors (shared s)) out) s.

Definition is_walk_error (l : Line) : bool :=
  match l with
  | LWalkError _ => true
  | _ => false
  end.

Definition is_processed_line (l : Line) : bool :=
  match l with
  | LProcessed _ _ => true
  | _ => false
  end.

Fixpoint count_lines (f : Line -> bool) (out : list Line) : nat :=
  match out with
  | [] => O
  | l :: out' => ((if f l then 1 else 0) + count_lines f out')%nat
  end.

(** [processFile] has printed its line and the worker has not yet
    incremented [processed]. *)
Definition is_hashed (pc : WorkerPc) : nat :=
  match pc with WResult None => 1 | _ => 0 end%nat.

(** The number of workers of the initial pool. *)
Definition poolSize (cfg : Config) : nat := Z.to_nat (initWorkers cfg).

(** The id of the worker at position [i] of the worker list: the loop
    counter for the initial pool; for the workers of the autoscaler the
    numbering starts one above the initial worker count. *)
Definition expected_id (cfg : Config) (i : nat) : Z :=
  if (i <? poolSize cfg)%nat then Z.of_nat i
  else Int64.wrap (initWorkers cfg + Z.of_nat (i - poolSize cfg) + 1).

(** Worker ids: every worker has the id of its position, and the
    autoscaler's [workerID] is the initial count plus the number of workers
    it has spawned. *)
Definition inv_ids (cfg : Config) (s : State) : Prop :=
  (forall i w, workers s !! i = Some w -> w_id w = expected_id cfg i) /\
  match mainPc s with
  | MStart => length (workers s) = O
  | MSpawn i => Z.of_nat (length (workers s)) = i /\ (length (workers s) <= poolSize cfg)%nat
  | MScaler => length (workers s) = poolSize cfg
  | _ => (poolSize cfg <= length (workers s))%nat
  end /\
  match scaler s with
  | SSelect workerID _ | STick _ workerID _ =>
    workerID = Int64.wrap (initWorkers cfg + Z.of_nat (length (workers s) - poolSize cfg))
  | SNotStarted | SExited => True
  end.


(** The lines of [metricsReporter], the events of its goroutine, and a
    state and a schedule without them. *)
Definition is_reporter_line (l : Line) : bool :=
  match l with
  | LMetrics _ _ _ | LReporterDown => true
  | _ => false
  end.

Definition is_reporter_event (ev : Event) : bool :=
  match ev with
  | EvReporter _ => true
  | _ => false
  end.

Definition other_lines (out : list Line) : list Line :=
  List.filter (fun l => negb (is_reporter_line l)) out.

Definition other_events (evs : list Event) : list Event :=
  List.filter (fun ev => negb (is_reporter_event ev)) evs.

Definition without_reporter (s : State) : State :=
  set_reporter RNotStarted (set_stdout (other_lines (stdout (shared s))) s).

(** The run of [cfg_mixed] when the autoscaler has sampled the depth. *)
Definition st_sampled : State :=
  Eval vm_compute in
    state_after cfg_mixed (startup 2 ++ repeat (EvProducer CaseComm) 8 ++ [EvScaler CaseComm]).

(** The shutdown line of each kind of goroutine, and the lines of the
    autoscaler. *)
Definition is_signal_line (l : Line) : bool :=
  match l with LShutdownSignal => true | _ => false end.

Definition is_worker_down (l : Line) : bool :=
  match l with LWorkerDown _ => true | _ => false end.

Definition is_reporter_down (l : Line) : bool :=
  match l with LReporterDown => true | _ => false end.

Definition is_scaler_line (l : Line) : bool :=
  match l with LSpawned _ _ | LReducing _ => true | _ => false end.

(** What the output so far tells about the state: no line for an error of
    the walk; one line of the signal goroutine once a signal is received and
    one of the reporter once it has returned, at most one for each worker
    that has returned, and none of a worker or of the reporter while the
    context is not cancelled; and one line of [processFile] for each file
    counted in [processed] or hashed and about to be counted. *)
Definition inv_output (s : State) : Prop :=
  let out := stdout (shared s) in
  count_lines is_walk_error out = O /\
  count_lines is_signal_line out
    = match sigPc s with SigWaiting => O | _ => 1%nat end /\
  count_lines is_reporter_down out
    = match reporter s with RExited => 1%nat | _ => O end /\
  (count_lines is_worker_down out <= wcount is_exited (workers s))%nat /\
  (cancelled (shared s) = false ->
   count_lines is_worker_down out = O /\ count_lines is_reporter_down out = O) /\
  Z.of_nat (count_lines is_processed_line out)
    = processed (metrics (shared s)) + Z.of_nat (wcount is_hashed (workers s)).

(** A metrics line shows the values [p], [f] and [q]. *)
Definition reports (p f q : Z) (l : Line) : Prop :=
  match l with
  | LMetrics p' f' q' => p' = p /\ f' = f /\ q' = q
  | _ => True
  end.

(** A metrics line shows counters between zero and [p] and [f], and a queue
    length between zero and the capacity. *)
Definition within (p f : Z) (l : Line) : Prop :=
  match l with
  | LMetrics p' f' q' => 0 <= p' <= p /\ 0 <= f' <= f /\ 0 <= q' <= 100
  | _ => True
  end.

(** The counters of the metrics lines never decrease down the output,
    starting from [p] and [f]. *)
Fixpoint monotone (p f : Z) (out : list Line) : Prop :=
  match out with
  | [] => True
  | LMetrics p' f' _ :: out' => p <= p' /\ f <= f' /\ monotone p' f' out'
  | _ :: out' => monotone p f out'
  end.

Definition inv_metrics (s : State) : Prop :=
  Forall (within (processed (metrics (shared s))) (failed (metrics (shared s))))
         (stdout (shared s)) /\
  monotone 0 0 (stdout (shared s)).

(** The run of [cfg_mixed] up to the deferred [cancel()] of [main], and then
    the reporter: no signal, a cancelled context, the process still there. *)
Definition sched_window : list Event := removelast sched_mixed ++ [EvReporter CaseDone].
Definition st_window : State := Eval vm_compute in state_after cfg_mixed sched_window.
(** ** Basic facts *)

Lemma wrap_small z : Int64.in_range z -> Int64.wrap z = z.
Proof.
  unfold Int64.in_range, Int64.min_int, Int64.max_int, Int64.wrap. intros H.
  rewrite Z.mod_small; lia.
Qed.

Lemma wrap_in_range z : Int64.in_range (Int64.wrap z).
Proof.
  unfold Int64.in_range, Int64.min_int, Int64.max_int, Int64.wrap.
  pose proof (Z.mod_pos_bound (z + 2 ^ 63) (2 ^ 64)). lia.
Qed.

Lemma add_small x y : Int64.in_range (x + y) -> Int64.add x y = x + y.
Proof. apply wrap_small. Qed.

Lemma sub_small x y : Int64.in_range (x - y) -> Int64.sub x y = x - y.
Proof. apply wrap_small. Qed.

Lemma wcount_app f ws1 ws2 :
  wcount f (ws1 ++ ws2) = (wcount f ws1 + wcount f ws2)%nat.
Proof. induction ws1 as [|w ws1 IH]; simpl; [reflexivity | rewrite IH; lia]. Qed.

Lemma wcount_insert f ws i w w' :
  ws !! i = Some w ->
  (wcount f (<[i := w']> ws) + f (w_pc w) = wcount f ws + f (w_pc w'))%nat.
Proof.
  revert i. induction ws as [|x ws IH]; intros [|i] H; simpl in *; try discriminate.
  - injection H as ->. lia.
  - specialize (IH i H). lia.
Qed.

Lemma wcount_le f g ws :
  (forall pc, (f pc <= g pc)%nat) -> (wcount f ws <= wcount g ws)%nat.
Proof.
  intros H. induction ws as [|w ws IH]; simpl; [lia|]. specialize (H (w_pc w)). lia.
Qed.

Lemma wcount_lookup f ws i w :
  ws !! i = Some w -> (f (w_pc w) <= wcount f ws)%nat.
Proof.
  revert i. induction ws as [|x ws IH]; intros [|i] H; simpl in *; try discriminate.
  - injection H as ->. lia.
  - specialize (IH i H). lia.
Qed.

Lemma countp_app f l1 l2 : countp f (l1 ++ l2) = (countp f l1 + countp f l2)%nat.
Proof. induction l1 as [|x l1 IH]; simpl; [reflexivity | rewrite IH; lia]. Qed.

Lemma countp_split fs l :
  (countp (ok_path fs) l + countp (bad_path fs) l <= length l)%nat.
Proof.
  induction l as [|x l IH]; simpl; [lia|].
  unfold ok_path at 1, bad_path at 1. destruct (fs x); simpl; lia.
Qed.

Lemma files_length l : (length (files l) <= length l)%nat.
Proof. induction l as [|e l IH]; simpl; [lia|]. destruct (enqueued e); simpl; lia. Qed.

Lemma summary_app out1 out2 : summary (out1 ++ out2) = summary out1 ++ summary out2.
Proof.
  induction out1 as [|l out1 IH]; simpl; [reflexivity|].
  destruct (is_summary l); simpl; rewrite IH; reflexivity.
Qed.

Lemma set_shared_same s : set_shared (shared s) s = s.
Proof. destruct s; reflexivity. Qed.

Lemma run_app cfg evs1 evs2 s :
  run cfg (evs1 ++ evs2) s = (s' <- run cfg evs1 s ;; run cfg evs2 s').
Proof.
  revert s. induction evs1 as [|ev evs1 IH]; intros s; simpl; [reflexivity|].
  destruct (step cfg ev s); simpl; auto.
Qed.

Lemma run_snoc cfg evs ev s s' :
  run cfg (evs ++ [ev]) s = Ready s' ->
  exists s1, run cfg evs s = Ready s1 /\ step cfg ev s1 = Ready s'.
Proof.
  rewrite run_app. destruct (run cfg evs s) as [s1| |]; simpl; try discriminate.
  destruct (step cfg ev s1) as [s2| |] eqn:E; simpl; try discriminate.
  intros H. exists s1. split; [reflexivity | congruence].
Qed.

Lemma reachable_init cfg : reachable cfg init.
Proof. exists []. reflexivity. Qed.

Lemma reachable_step cfg ev s s' :
  reachable cfg s -> step cfg ev s = Ready s' -> reachable cfg s'.
Proof.
  intros [evs H] Hs. exists (evs ++ [ev]). rewrite run_app, H. simpl. rewrite Hs.
  reflexivity.
Qed.

Lemma reachable_run cfg evs s s' :
  reachable cfg s -> run cfg evs s = Ready s' -> reachable cfg s'.
Proof.
  intros [evs0 H] Hs. exists (evs0 ++ evs). rewrite run_app, H. exact Hs.
Qed.

(** Induction over the reachable states. *)
Lemma reachable_ind cfg (P : State -> Prop) :
  P init ->
  (forall ev s s', reachable cfg s -> P s -> step cfg ev s = Ready s' -> P s') ->
  forall s, reachable cfg s -> P s.
Proof.
  intros Hinit Hstep s [evs H]. revert s H.
  induction evs as [|ev evs IH] using rev_ind; intros s H.
  - simpl in H. injection H as <-. exact Hinit.
  - apply run_snoc in H as (s1 & H1 & H2).
    eapply Hstep; [exists evs; exact H1 | apply IH; exact H1 | exact H2].
Qed.

(** ** Case analysis of one step *)

Ltac break_match H :=
  repeat match type of H with
  | context [w_pc ?w] => is_var w; destruct w; simpl in H
  | context [match ?x with _ => _ end] =>
    lazymatch x with
    | context [match _ with _ => _ end] => fail
    | _ => tryif is_var x then destruct x else destruct x eqn:?
    end; simpl in H; try discriminate H
  end.

Ltac open_state s :=
  let sh := fresh "sh" in
  destruct s as [sh ? ? ? ? ? ?]; destruct sh as [? [? ? ?] ? [? ?] ? ? ?].

Lemma wcount_spawned f ids :
  wcount f (map (fun id => mkWorker id WSelect) ids) = (length ids * f WSelect)%nat.
Proof. induction ids as [|id ids IH]; simpl; [reflexivity | rewrite IH; lia]. Qed.

(** What a tick of the autoscaler does to the shared store: it adds the
    spawned workers to the wait group and prints; nothing else changes. *)
Lemma scalerTick_inv q wid act sh pc sh' sp :
  scalerTick q wid act sh = Ready (pc, sh', sp) ->
  exists wid' act' ids out,
    pc = SSelect wid' act' /\
    sp = map (fun id => mkWorker id WSelect) ids /\
    sh' = mkShared (cancelled sh) (jobs sh) (wg sh + Z.of_nat (length ids))
                   (metrics sh) (errMu sh) (errors sh) (stdout sh ++ out) /\
    summary out = [].
Proof.
  unfold scalerTick, scaleUp, spawn, wg_add, Res_bind. destruct sh. simpl.
  intros H. break_match H; injection H as <- <- <-.
  all: unfold print, set_wg; simpl.
  all: first
    [ eexists _, _, [], []; simpl; rewrite ?app_nil_r, ?Z.add_0_r; repeat split; reflexivity
    | eexists _, _, [], [_]; simpl; rewrite ?Z.add_0_r; repeat split; reflexivity
    | eexists _, _, [_], [_]; simpl; repeat split; reflexivity
    | eexists _, _, [_], [_; _]; simpl; rewrite <- ?app_assoc; repeat split; reflexivity
    | eexists _, _, [_; _], [_; _]; simpl; rewrite <- ?app_assoc, <- ?Z.add_assoc;
      repeat split; reflexivity
    | eexists _, _, [_; _], [_; _; _]; simpl; rewrite <- ?app_assoc, <- ?Z.add_assoc;
      repeat split; reflexivity ].
Qed.

(** Turn [H : step cfg ev s = Ready s'] into one goal per enabled case, with
    [s'] replaced by the explicit successor state. *)
Ltac step_cases H :=
  unfold step, signal_step, main, metricsReporter, workerAutoscaler,
    walker, worker, worker_return, spawn, wg_wait, wg_done, wg_add,
    chan_send, chan_recv, chan_close, chan_len, processFile, Res_bind in H;
  simpl in H; break_match H;
  try (injection H as <-);
  repeat match goal with
  | Ht : scalerTick _ _ _ _ = Ready _ |- _ =>
    apply scalerTick_inv in Ht as (? & ? & ? & ? & -> & -> & -> & ?)
  end;
  unfold exited in *; simpl in *.

Ltac bool_hyps :=
  repeat match goal with
  | H : (_ && _) = true |- _ => apply andb_prop in H as [? ?]
  | H : (_ <? _) = true |- _ => apply Z.ltb_lt in H
  | H : (_ <? _) = false |- _ => apply Z.ltb_ge in H
  | H : (_ >? _) = true |- _ => rewrite Z.gtb_ltb in H; apply Z.ltb_lt in H
  | H : (_ >? _) = false |- _ => rewrite Z.gtb_ltb in H; apply Z.ltb_ge in H
  | H : (_ =? _) = true |- _ => apply Z.eqb_eq in H
  | H : (_ =? _) = false |- _ => apply Z.eqb_neq in H
  end.

Ltac wfacts :=
  repeat match goal with
  | Hl : ?ws !! ?i = Some ?w |- context [wcount ?f (<[?i := ?w']> ?ws)] =>
    lazymatch goal with
    | _ : (wcount f (<[i := w']> ws) + _ = _)%nat |- _ => fail
    | _ => pose proof (wcount_insert f ws i w w' Hl)
    end
  end;
  rewrite ?wcount_app, ?wcount_spawned; simpl in *.

Lemma wiring_step cfg ev s s' :
  inv_wiring s -> step cfg ev s = Ready s' -> inv_wiring s'.
Proof.
  unfold inv_wiring, chan_len.
  intros (Hwg & Hmu & Hcl & Hcap & Hlen & Hctx & Hr & Hs & Hp) H.
  open_state s. destruct ev; step_cases H.
  all: bool_hyps; wfacts; rewrite ?length_app; simpl; repeat split;
    try congruence; try lia.
  all: try (destruct sigPc0; congruence).
  all: try (destruct producer0; congruence).
Qed.

Lemma wiring_init : inv_wiring init.
Proof. unfold inv_wiring, chan_len. simpl. repeat split; lia. Qed.

Lemma wiring_reachable cfg s : reachable cfg s -> inv_wiring s.
Proof.
  revert s. apply reachable_ind; [exact wiring_init|].
  intros ev s s' _ Hs H. exact (wiring_step cfg ev s s' Hs H).
Qed.

Lemma scalerTick_no_panic q wid act sh :
  0 <= wg sh -> scalerTick q wid act sh <> Panic.
Proof.
  unfold scalerTick, scaleUp, spawn, wg_add, Res_bind. destruct sh. simpl.
  intros Hwg H. break_match H; bool_hyps; lia.
Qed.

(** In a state that satisfies the wiring invariant no operation panics: no
    send on or close of a closed channel, no negative wait-group counter, no
    unlock of an unlocked mutex. *)
Lemma step_no_panic cfg ev s : inv_wiring s -> step cfg ev s <> Panic.
Proof.
  unfold inv_wiring, chan_len.
  intros (Hwg & Hmu & Hcl & Hcap & Hlen & Hctx & Hr & Hs & Hp) H.
  open_state s. destruct ev; step_cases H.
  all: bool_hyps; try lia; try congruence.
  all: try match goal with
       | Ht : scalerTick _ _ _ _ = Panic |- _ =>
         apply scalerTick_no_panic in Ht; [contradiction | simpl; lia]
       end.
  all: try match goal with
       | Hl : ?ws !! ?i = Some ?w |- _ =>
         pose proof (wcount_lookup is_live ws i w Hl);
         pose proof (wcount_lookup is_holder ws i w Hl)
       end; simpl in *; try lia.
  all: try (destruct errMu0; simpl in *; try discriminate; lia).

Qed.

(** ** Conservation of jobs *)

Lemma add1_small x : 0 <= x -> x < Int64.max_int -> Int64.add x 1 = x + 1.
Proof.
  intros H0 H1. apply add_small.
  unfold Int64.in_range, Int64.min_int, Int64.max_int in *. lia.
Qed.

Lemma files_bound cfg :
  valid_config cfg ->
  Z.of_nat (validFiles cfg) + Z.of_nat (unreadableFiles cfg) <= Int64.max_int.
Proof.
  intros [_ H]. unfold validFiles, unreadableFiles.
  pose proof (countp_split (fsys cfg) (files (dir cfg))).
  pose proof (files_length (dir cfg)). lia.
Qed.

Lemma ok_not_bad fs path : ok_path fs path = true -> bad_path fs path = false.
Proof. unfold ok_path, bad_path. destruct (fs path); congruence. Qed.

(** The three outcomes of [processFile] on a path. *)
Ltac case_path f p :=
  let Hx := fresh in
  pose proof (ok_not_bad f p) as Hx;
  destruct (ok_path f p) eqn:?;
    [ specialize (Hx eq_refl); rewrite ?Hx in *; clear Hx
    | clear Hx; destruct (bad_path f p) eqn:? ].

(** Replace the tests on a walk entry and on a path by their outcome. *)
Ltac path_facts :=
  repeat match goal with
  | H1 : we_err ?e = Some _ |- _ =>
    assert (enqueued e = false) by (unfold enqueued; rewrite H1; reflexivity);
    clear H1
  | H1 : we_err ?e = None, H2 : we_isDir ?e = ?b |- _ =>
    assert (enqueued e = negb b) by (unfold enqueued; rewrite H1, H2; reflexivity);
    clear H1 H2
  | H : fsys ?c ?p = Readable _ |- _ =>
    assert (ok_path (fsys c) p = true) by (unfold ok_path; rewrite H; reflexivity);
    assert (bad_path (fsys c) p = false) by (unfold bad_path; rewrite H; reflexivity);
    clear H
  | H : fsys ?c ?p = OpenFails _ |- _ =>
    assert (ok_path (fsys c) p = false) by (unfold ok_path; rewrite H; reflexivity);
    assert (bad_path (fsys c) p = true) by (unfold bad_path; rewrite H; reflexivity);
    clear H
  | H : fsys ?c ?p = ReadFails _ |- _ =>
    assert (ok_path (fsys c) p = false) by (unfold ok_path; rewrite H; reflexivity);
    assert (bad_path (fsys c) p = true) by (unfold bad_path; rewrite H; reflexivity);
    clear H
  end;
  repeat match goal with
  | H : enqueued _ = _ |- _ => rewrite H in *; clear H
  | H : ok_path _ _ = _ |- _ => rewrite H in *; clear H
  | H : bad_path _ _ = _ |- _ => rewrite H in *; clear H
  end;
  simpl in *;
  repeat match goal with
  | |- context [if ok_path ?f ?p then _ else _] => case_path f p
  | _ : context [if ok_path ?f ?p then _ else _] |- _ => case_path f p
  | |- context [if bad_path ?f ?p then _ else _] => case_path f p
  | _ : context [if bad_path ?f ?p then _ else _] |- _ => case_path f p
  end;
  simpl in *.

Lemma count_step cfg ev s s' :
  valid_config cfg -> inv_wiring s -> inv_count cfg s ->
  step cfg ev s = Ready s' -> inv_count cfg s'.
Proof.
  intros Hv Hw Hc H. pose proof (files_bound cfg Hv) as Hb.
  destruct Hw as (Hwg & Hmu & Hcl & Hcap & Hlen & Hctx & _ & _ & Hp).
  destruct Hc as (Hp0 & Hf0 & Hok & Hbad & Hunc & Herr).
  unfold inv_count, pending_ok, pending_bad, uncancelled, chan_len in *.
  open_state s. destruct ev; step_cases H.
  all: bool_hyps; wfacts; rewrite ?length_app, ?countp_app in *; simpl in *.
  all: path_facts.
  all: rewrite ?add1_small by lia.
  all: repeat match goal with |- _ /\ _ => split end; try lia.
  all: try (intros Hu; try discriminate Hu; specialize (Hunc Hu); lia).
  all: try (intros Hu; subst sigPc0; discriminate).
  all: destruct producer0; try discriminate Hp; simpl in *; try lia.
  all: intros Hu; specialize (Hunc Hu); lia.
Qed.

Lemma count_init cfg : inv_count cfg init.
Proof.
  unfold inv_count, pending_ok, pending_bad, validFiles, unreadableFiles, uncancelled.
  simpl. repeat split; lia.
Qed.

Lemma count_reachable cfg s : valid_config cfg -> reachable cfg s -> inv_count cfg s.
Proof.
  intros Hv. revert s. apply reachable_ind; [exact (count_init cfg)|].
  intros ev s s' Hr Hs H.
  exact (count_step cfg ev s s' Hv (wiring_reachable cfg s Hr) Hs H).
Qed.

(** ** Draining in runs without interrupt *)

Lemma live_exited ws : (wcount is_live ws + wcount is_exited ws = length ws)%nat.
Proof. induction ws as [|[id []] ws IH]; simpl; lia. Qed.

Lemma busy_live ws : (wcount is_busy ws <= wcount is_live ws)%nat.
Proof. apply wcount_le. intros []; simpl; lia. Qed.

Lemma inflight_ok_busy fs ws : (wcount (inflight_ok fs) ws <= wcount is_busy ws)%nat.
Proof. apply wcount_le. intros [| | [] | | | | ]; simpl; try lia. destruct (ok_path _ _); lia. Qed.

Lemma inflight_bad_busy fs ws : (wcount (inflight_bad fs) ws <= wcount is_busy ws)%nat.
Proof. apply wcount_le. intros [| | [] | | | | ]; simpl; try lia. destruct (bad_path _ _); lia. Qed.

Lemma pending_busy ws : (wcount is_pending ws <= wcount is_busy ws)%nat.
Proof. apply wcount_le. intros []; simpl; lia. Qed.

Lemma summary_errorLines errs : summary (errorLines errs) = errorLines errs.
Proof.
  unfold errorLines. destruct (Z.of_nat (length errs) >? 0); [|reflexivity].
  simpl. f_equal. induction errs as [|e errs IH]; simpl; [reflexivity | now rewrite IH].
Qed.

Ltac use_hyps :=
  repeat match goal with
  | H : ?a = ?a -> _ |- _ => specialize (H eq_refl)
  | H : ?P -> _, Hp : ?P |- _ => specialize (H Hp)
  | H : (0 < _)%nat -> _ |- _ =>
    let Hn := fresh in
    match type of H with ?P -> _ => assert (Hn : P) by lia end; specialize (H Hn)
  | H : _ /\ _ |- _ => destruct H
  end.

Lemma drain_step cfg ev s s' :
  valid_config cfg -> inv_wiring s -> inv_count cfg s -> inv_drain cfg s ->
  step cfg ev s = Ready s' -> inv_drain cfg s'.
Proof.
  intros [[Hv0 Hv1] _] Hw Hc Hd H.
  destruct Hw as (Hwg & Hmu & Hcl & Hcap & Hlen & Hctx & _ & Hs & Hp).
  destruct Hc as (Hp0 & Hf0 & Hok & Hbad & Hunc & Herr).
  destruct Hd as (Hsp & Hex & Hpost & Hsum).
  unfold inv_drain, expected_summary, pending_ok, pending_bad, uncancelled, chan_len in *.
  open_state s.
  pose proof (live_exited workers0) as Hle.
  pose proof (busy_live workers0) as Hbl.
  pose proof (inflight_ok_busy (fsys cfg) workers0) as Hob.
  pose proof (inflight_bad_busy (fsys cfg) workers0) as Hbb.
  pose proof (pending_busy workers0) as Hpb.
  destruct ev; step_cases H.
  all: bool_hyps; wfacts;
    rewrite ?length_app, ?summary_app, ?summary_errorLines, ?length_insert, ?length_map in *;
    simpl in *.
  all: repeat match goal with |- _ /\ _ => split end; try lia.
  all: try (destruct mainPc0; try discriminate; simpl in * ).
  all: intros; try discriminate; use_hyps; subst; simpl in *; try lia; try tauto.
  all: rewrite ?app_nil_r; try congruence.
  all: rewrite ?add1_small by lia; try lia.
  all: repeat match goal with |- _ /\ _ => split end; try lia; try congruence.
  all: try (destruct producer0; try discriminate; simpl in *; use_hyps; congruence).
  all: repeat match goal with
       | H : summary ?x = _ |- context [summary ?x] => rewrite H
       end; rewrite ?app_nil_r; simpl; try congruence.
  all: try (destruct producer0; try discriminate; simpl in *; repeat f_equal; lia).
  all: try match goal with
       | Hl : ?ws !! ?i = Some ?w |- _ =>
         pose proof (wcount_lookup is_busy ws i w Hl); simpl in *; lia
       end.
  all: destruct (Hunc eq_refl) as [Hu1 Hu2];
    destruct Hex as [Hex1 Hex2]; [reflexivity | lia |];
    subst buf0; destruct producer0; try discriminate; simpl in *; lia.
Qed.

Lemma drain_init cfg : inv_drain cfg init.
Proof.
  unfold inv_drain, expected_summary, uncancelled. simpl.
  repeat split; try lia; try discriminate.
Qed.

Lemma drain_reachable cfg s : valid_config cfg -> reachable cfg s -> inv_drain cfg s.
Proof.
  intros Hv. revert s. apply reachable_ind; [exact (drain_init cfg)|].
  intros ev s s' Hr Hs H.
  exact (drain_step cfg ev s s' Hv (wiring_reachable cfg s Hr)
           (count_reachable cfg s Hv Hr) Hs H).
Qed.

(** ** The autoscaler *)

Lemma scalerTick_range q wid act sh wid' act' sh' sp :
  Int64.in_range act ->
  scalerTick q wid act sh = Ready (SSelect wid' act', sh', sp) ->
  Int64.in_range act'.
Proof.
  unfold scalerTick, scaleUp, spawn, wg_add, Res_bind. simpl.
  intros Hr H. break_match H; injection H as <- <- <- <-;
    unfold Int64.add, Int64.sub; auto using wrap_in_range.
Qed.

Lemma scaler_step_inv cfg ev s s' :
  valid_config cfg -> inv_scaler s -> step cfg ev s = Ready s' -> inv_scaler s'.
Proof.
  intros [Hv _] Hs H. unfold inv_scaler in *.
  destruct ev; try solve [open_state s; step_cases H; auto].
  unfold step in H. destruct (exited s); [discriminate|].
  unfold workerAutoscaler, Res_bind in H.
  destruct (scaler s) as [|wid act|q wid act|] eqn:E; try discriminate.
  - destruct b; [destruct (cancelled (shared s)); [|discriminate]|];
      injection H as <-; simpl; auto.
  - destruct (scalerTick q wid act (shared s)) as [[[pc sh'] sp]| |] eqn:Ht;
      try discriminate.
    injection H as <-. simpl.
    destruct (scalerTick_inv _ _ _ _ _ _ _ Ht) as (wid' & act' & _ & _ & -> & _).
    eapply scalerTick_range; eauto.
Qed.

Lemma scaler_reachable cfg s : valid_config cfg -> reachable cfg s -> inv_scaler s.
Proof.
  intros Hv. revert s. apply reachable_ind; [exact I|].
  intros ev s s' _ Hs H. exact (scaler_step_inv cfg ev s s' Hv Hs H).
Qed.

(** A tick begins by sampling [len(jobs)]. *)
Lemma tick_samples_depth cfg s wid act :
  exited s = false -> scaler s = SSelect wid act ->
  step cfg (EvScaler CaseComm) s
    = Ready (set_scaler (STick (chan_len (jobs (shared s))) wid act) s).
Proof.
  intros Hx Hs. unfold step, workerAutoscaler. rewrite Hx, Hs. simpl.
  rewrite set_shared_same, app_nil_r. destruct s; reflexivity.
Qed.

(** Scale-up: with the sampled depth above the high watermark and the
    tracked count below [maxWorkers], the tick spawns
    [min 2 (maxWorkers - activeWorkers)] workers and counts each of them. *)
Lemma scalerTick_up q wid act sh :
  50 < q -> act < maxWorkers -> Int64.in_range act -> 0 <= wg sh ->
  let k := Z.min 2 (maxWorkers - act) in
  exists out,
    scalerTick q wid act sh =
      Ready (SSelect (w_id (List.last (spawnedWorkers (Z.to_nat k) wid) (mkWorker wid WSelect)))
                     (act + k),
             after_tick k out sh, spawnedWorkers (Z.to_nat k) wid) /\
    summary out = [].
Proof.
  intros Hq Ha Hr Hwg k.
  unfold maxWorkers, Int64.in_range, Int64.min_int, Int64.max_int in *.
  assert (Hk : k = 1 \/ k = 2) by (unfold k; lia).
  unfold scalerTick, scaleUp, spawn, wg_add, Res_bind, after_tick, maxWorkers, minWorkers.
  destruct sh. simpl in *.
  assert (H1 : Int64.add act 1 = act + 1)
    by (apply add_small; unfold Int64.in_range, Int64.min_int, Int64.max_int; lia).
  rewrite H1.
  replace (q >? 50) with true by (symmetry; apply Z.gtb_lt; lia).
  replace (act <? 20) with true by (symmetry; apply Z.ltb_lt; lia).
  replace (q <? 10) with false by (symmetry; apply Z.ltb_ge; lia).
  replace (wg0 + 1 <? 0) with false by (symmetry; apply Z.ltb_ge; lia).
  simpl. destruct Hk as [Hk|Hk]; rewrite Hk; simpl.
  - replace (act + 1 <? 20) with false by (symmetry; apply Z.ltb_ge; lia).
    simpl. eexists [_]. split; reflexivity.
  - replace (act + 1 <? 20) with true by (symmetry; apply Z.ltb_lt; lia).
    replace (wg0 + 1 + 1 <? 0) with false by (symmetry; apply Z.ltb_ge; lia).
    assert (H2 : Int64.add (act + 1) 1 = act + 2)
      by (rewrite add_small; unfold Int64.in_range, Int64.min_int, Int64.max_int; lia).
    rewrite H2. simpl. eexists [_; _]. unfold print, set_wg. simpl.
    rewrite <- app_assoc, <- Z.add_assoc. split; reflexivity.
Qed.

(** Scale-down: with the sampled depth below the low watermark and the
    tracked count above [minWorkers], the tick only lowers the tracked count
    by one. *)
Lemma scalerTick_down q wid act sh :
  q < 10 -> minWorkers < act -> Int64.in_range act ->
  scalerTick q wid act sh =
    Ready (SSelect wid (act - 1), after_tick 0 [LReducing (act - 1)] sh, []).
Proof.
  unfold minWorkers, Int64.in_range, Int64.min_int, Int64.max_int.
  intros Hq Ha Hr.
  unfold scalerTick, Res_bind, after_tick, minWorkers. destruct sh. simpl.
  replace (q >? 50) with false by (rewrite Z.gtb_ltb; symmetry; apply Z.ltb_ge; lia).
  replace (q <? 10) with true by (symmetry; apply Z.ltb_lt; lia).
  simpl.
  replace (act >? 2) with true by (symmetry; apply Z.gtb_lt; lia).
  unfold print. simpl. rewrite sub_small, Z.add_0_r
    by (unfold Int64.in_range, Int64.min_int, Int64.max_int; lia).
  reflexivity.
Qed.

Ltac solve_valid :=
  unfold valid_config, Int64.in_range, Int64.min_int, Int64.max_int; simpl; lia.

Ltac solve_reachable evs := exists evs; vm_compute; reflexivity.

(** C2. On a tick of the running autoscaler whose sampled queue depth is
    above the high watermark 50 while the tracked [activeWorkers] is below
    [maxWorkers] = 20, exactly [min 2 (20 - activeWorkers)] workers are
    spawned, each added to the one wait group and each counted once in
    [activeWorkers], which does not pass [maxWorkers]; nothing else in the
    shared store changes but the output. *)
Theorem scale_up_rule cfg s b q wid act :
  valid_config cfg -> reachable cfg s -> exited s = false ->
  scaler s = STick q wid act -> 50 < q -> act < maxWorkers ->
  let k := Z.min 2 (maxWorkers - act) in
  exists s' wid' out,
    step cfg (EvScaler b) s = Ready s' /\
    workers s' = workers s ++ spawnedWorkers (Z.to_nat k) wid /\
    Z.of_nat (length (spawnedWorkers (Z.to_nat k) wid)) = k /\
    Forall (fun w => w_pc w = WSelect) (spawnedWorkers (Z.to_nat k) wid) /\
    wg (shared s') = wg (shared s) + k /\
    scaler s' = SSelect wid' (act + k) /\
    act + k <= maxWorkers /\
    shared s' = after_tick k out (shared s) /\ summary out = [] /\
    mainPc s' = mainPc s /\ sigPc s' = sigPc s /\ reporter s' = reporter s /\
    producer s' = producer s.
Proof.
  intros Hv Hr He Hs Hq Ha k.
  pose proof (wiring_reachable cfg s Hr) as (Hwg & _).
  pose proof (scaler_reachable cfg s Hv Hr) as Hrange.
  unfold inv_scaler in Hrange. rewrite Hs in Hrange.
  assert (Hwg0 : 0 <= wg (shared s)) by lia.
  destruct (scalerTick_up q wid act (shared s) Hq Ha Hrange Hwg0) as (out & Ht & Hout).
  fold k in Ht.
  assert (Hk : k = 1 \/ k = 2) by (unfold k, maxWorkers in *; lia).
  eexists _, _, out. unfold step. rewrite He, Hs. simpl. rewrite Ht. simpl.
  repeat split; try reflexivity; try assumption.
  - destruct Hk as [-> | ->]; reflexivity.
  - destruct Hk as [-> | ->]; simpl; repeat constructor.
  - unfold k, maxWorkers in *; lia.
Qed.

Lemma scale_up_rule_witness :
  exists s' wid',
    step cfg_up (EvScaler CaseComm) st_up = Ready s' /\
    workers s' = workers st_up ++ spawnedWorkers 2 5 /\
    wg (shared s') = 7 /\ scaler s' = SSelect wid' 7.
Proof.
  destruct (scale_up_rule cfg_up st_up CaseComm 60 5 5) as
    (s' & wid' & out & H1 & H2 & _ & _ & H3 & H4 & _);
    [solve_valid | solve_reachable sched_up | reflexivity | reflexivity
    | lia | unfold maxWorkers; lia |].
  exists s', wid'. repeat split; assumption.
Defined.

(** C3. On a tick of the running autoscaler whose sampled queue depth is
    below the low watermark 10 while the tracked [activeWorkers] is above
    [minWorkers] = 2, the tracked count drops by exactly one, not below
    [minWorkers]; the worker list, the wait group and the rest of the shared
    store are untouched (one line is printed): no worker is stopped. *)
Theorem scale_down_rule cfg s b q wid act :
  valid_config cfg -> reachable cfg s -> exited s = false ->
  scaler s = STick q wid act -> q < 10 -> minWorkers < act ->
  exists s',
    step cfg (EvScaler b) s = Ready s' /\
    scaler s' = SSelect wid (act - 1) /\ minWorkers <= act - 1 /\
    workers s' = workers s /\
    shared s' = print [LReducing (act - 1)] (shared s) /\
    mainPc s' = mainPc s /\ sigPc s' = sigPc s /\ reporter s' = reporter s /\
    producer s' = producer s.
Proof.
  intros Hv Hr He Hs Hq Ha.
  pose proof (scaler_reachable cfg s Hv Hr) as Hrange.
  unfold inv_scaler in Hrange. rewrite Hs in Hrange.
  pose proof (scalerTick_down q wid act (shared s) Hq Ha Hrange) as Ht.
  eexists. unfold step. rewrite He, Hs. simpl. rewrite Ht. simpl.
  repeat split; try reflexivity.
  - lia.
  - apply app_nil_r.
  - unfold after_tick, print. rewrite Z.add_0_r. reflexivity.
Qed.

Lemma scale_down_rule_witness :
  exists s',
    step cfg_down (EvScaler CaseComm) st_down = Ready s' /\
    scaler s' = SSelect 4 3 /\ workers s' = workers st_down.
Proof.
  destruct (scale_down_rule cfg_down st_down CaseComm 5 4 4) as
    (s' & H1 & H2 & _ & H3 & _);
    [solve_valid | solve_reachable sched_down | reflexivity | reflexivity
    | lia | unfold minWorkers; lia |].
  exists s'. repeat split; assumption.
Defined.

(** ** Final counters *)

Lemma post_wait_quiescent cfg s :
  valid_config cfg -> 1 <= initWorkers cfg -> reachable cfg s ->
  uncancelled s -> post_wait (mainPc s) = true ->
  pending_ok cfg s = O /\ pending_bad cfg s = O /\ wcount is_pending (workers s) = O /\
  processed (metrics (shared s)) = Z.of_nat (validFiles cfg) /\
  failed (metrics (shared s)) = Z.of_nat (unreadableFiles cfg).
Proof.
  intros Hv Hi Hr Hu Hp.
  destruct (wiring_reachable cfg s Hr) as (_ & _ & Hcl & _).
  destruct (drain_reachable cfg s Hv Hr) as (_ & _ & Hpost & _).
  destruct (Hpost Hu Hp Hi) as (Hc & Hb & Hbusy & Hp1 & Hp2).
  pose proof (inflight_ok_busy (fsys cfg) (workers s)).
  pose proof (inflight_bad_busy (fsys cfg) (workers s)).
  pose proof (pending_busy (workers s)).
  unfold pending_ok, pending_bad. rewrite Hb. rewrite Hc in Hcl.
  destruct (producer s); try discriminate. simpl. lia.
Qed.

(** The state in which a run without interrupt, started with at least one
    worker, ends. *)
Lemma completed_run cfg s :
  valid_config cfg -> 1 <= initWorkers cfg -> reachable cfg s ->
  uncancelled s -> mainPc s = MDone ->
  processed (metrics (shared s)) = Z.of_nat (validFiles cfg) /\
  failed (metrics (shared s)) = Z.of_nat (unreadableFiles cfg) /\
  Z.of_nat (length (errors (shared s))) = failed (metrics (shared s)) /\
  summary (stdout (shared s)) =
    [LComplete; LFilesProcessed (Z.of_nat (validFiles cfg));
     LFilesFailed (Z.of_nat (unreadableFiles cfg))] ++ errorLines (errors (shared s)).
Proof.
  intros Hv Hi Hr Hu Hm.
  assert (Hp : post_wait (mainPc s) = true) by (rewrite Hm; reflexivity).
  destruct (post_wait_quiescent cfg s Hv Hi Hr Hu Hp) as (_ & _ & Hpend & H1 & H2).
  destruct (count_reachable cfg s Hv Hr) as (_ & _ & _ & _ & _ & Herr).
  rewrite Hpend in Herr.
  destruct (drain_reachable cfg s Hv Hr) as (_ & _ & _ & Hsum).
  specialize (Hsum Hu Hi). unfold expected_summary in Hsum. rewrite Hm in Hsum.
  repeat split; try lia. exact Hsum.
Qed.

(** C1 (as amended). In every run that completes without an interrupt and
    that started with at least one worker, over a walk that enumerates M
    files [processFile] hashes and K files it fails on, the final counters
    are [processed = M] and [failed = K], whatever the schedule and the
    autoscaler did; the summary printed shows these numbers. *)
Theorem final_counters cfg evs s :
  valid_config cfg -> 1 <= initWorkers cfg ->
  run cfg evs init = Ready s -> uncancelled s -> mainPc s = MDone ->
  processed (metrics (shared s)) = Z.of_nat (validFiles cfg) /\
  failed (metrics (shared s)) = Z.of_nat (unreadableFiles cfg) /\
  processed (metrics (shared s)) + failed (metrics (shared s))
    = Z.of_nat (validFiles cfg) + Z.of_nat (unreadableFiles cfg) /\
  summary (stdout (shared s)) =
    [LComplete; LFilesProcessed (Z.of_nat (validFiles cfg));
     LFilesFailed (Z.of_nat (unreadableFiles cfg))] ++ errorLines (errors (shared s)).
Proof.
  intros Hv Hi Hrun Hu Hm.
  assert (Hr : reachable cfg s) by (exists evs; exact Hrun).
  destruct (completed_run cfg s Hv Hi Hr Hu Hm) as (H1 & H2 & _ & H3).
  repeat split; try lia. exact H3.
Qed.

Lemma final_counters_witness :
  processed (metrics (shared st_mixed)) = 2 /\
  failed (metrics (shared st_mixed)) = 2 /\
  summary (stdout (shared st_mixed)) =
    [LComplete; LFilesProcessed 2; LFilesFailed 2; LSomeErrors;
     LError (ErrMsg "open bad: permission denied");
     LError (ErrMsg "hash torn: input/output error")].
Proof.
  destruct (final_counters cfg_mixed sched_mixed st_mixed) as (H1 & H2 & _ & H3);
    [solve_valid | simpl; lia | vm_compute; reflexivity | reflexivity | reflexivity |].
  split; [exact H1 | split; [exact H2 | exact H3]].
Defined.

(** Counterexample to C1 as stated, with an initial worker count of zero:
    the walk completes and the queue is closed with the one readable file in
    it, [wg.Wait()] has nobody to wait for, and the summary shows zero files
    processed. *)
Lemma final_counters_counterexample :
  ~ (forall cfg evs s,
       valid_config cfg ->
       run cfg evs init = Ready s -> uncancelled s -> mainPc s = MDone ->
       processed (metrics (shared s)) = Z.of_nat (validFiles cfg) /\
       failed (metrics (shared s)) = Z.of_nat (unreadableFiles cfg)).
Proof.
  intros H.
  destruct (H cfg_zero sched_zero st_zero) as [H1 _];
    [solve_valid | vm_compute; reflexivity | reflexivity | reflexivity |].
  vm_compute in H1. discriminate H1.
Qed.

(** ** Provenance of jobs and errors *)

Lemma Forall_spawned cfg ids :
  Forall (fun w => pc_paths cfg (w_pc w)) (map (fun id => mkWorker id WSelect) ids).
Proof. induction ids; simpl; constructor; simpl; auto. Qed.

Lemma paths_step cfg ev s s' :
  inv_paths cfg s -> step cfg ev s = Ready s' -> inv_paths cfg s'.
Proof.
  intros (Hb & Ht & Hw & He) H. unfold inv_paths.
  open_state s. destruct ev; step_cases H.
  all: repeat match goal with
       | Hl : ?ws !! ?i = Some ?w |- _ =>
         pose proof (Forall_lookup_1 _ _ _ _ Hw Hl); simpl in *;
         apply lookup_lt_Some in Hl
       end.
  all: repeat match goal with |- _ /\ _ => split end; auto.
  all: repeat match goal with
       | H : Forall _ (_ :: _) |- _ => apply Forall_cons in H as [? ?]
       end.
  all: try (apply Forall_app; split; auto using Forall_spawned).
  all: try (apply Forall_insert; auto; simpl; auto).
  all: try (repeat constructor; simpl; auto).
  all: try (unfold enqueued in Ht;
            repeat match goal with
            | H : we_err _ = _ |- _ => rewrite H in Ht
            | H : we_isDir _ = _ |- _ => rewrite H in Ht
            end; simpl in Ht; intros; auto; tauto).
  all: try (unfold enqueued in Ht;
            repeat match goal with
            | H : we_err _ = _ |- _ => rewrite H in Ht
            | H : we_isDir _ = _ |- _ => rewrite H in Ht
            end; simpl in Ht; solve [auto]).
  all: match goal with
       | Hf : fsys _ ?p = _ |- file_error _ _ =>
         eexists p, _; split; [assumption | unfold processFile; rewrite Hf; reflexivity]
       end.
Qed.

Lemma paths_init cfg : inv_paths cfg init.
Proof. unfold inv_paths. simpl. repeat split; auto. Qed.

Lemma paths_reachable cfg s : reachable cfg s -> inv_paths cfg s.
Proof.
  revert s. apply reachable_ind; [exact (paths_init cfg)|].
  intros ev s s' _ Hs H. exact (paths_step cfg ev s s' Hs H).
Qed.

Lemma In_files e l :
  In e (files l) <->
  exists w, In w l /\ we_path w = e /\ we_err w = None /\ we_isDir w = false.
Proof.
  induction l as [|x l IH]; simpl.
  - split; [tauto | intros (w & [] & _)].
  - unfold enqueued at 1. destruct (we_err x) eqn:E1; [|destruct (we_isDir x) eqn:E2];
      simpl; rewrite ?IH.
    + split.
      * intros (w & H1 & H2). exists w. tauto.
      * intros (w & [->|H1] & H2 & H3 & H4); [congruence | exists w; tauto].
    + split.
      * intros (w & H1 & H2). exists w. tauto.
      * intros (w & [->|H1] & H2 & H3 & H4); [congruence | exists w; tauto].
    + split.
      * intros [<-|(w & H1 & H2)]; [exists x; tauto | exists w; tauto].
      * intros (w & [->|H1] & H2 & H3 & H4); [left; assumption | right; exists w; tauto].
Qed.

(** C10. An entry for which the walk callback receives an error is skipped
    whatever the state of the queue: the walker moves on and nothing else
    changes.  Hence every path in the queue or held by a worker belongs to an
    entry enumerated without error that is not a directory, [processed] and
    [failed] are bounded by the numbers of such files that [processFile]
    hashes and fails on, and every error counted in [failed] is the open or
    read error of such a file. *)
Theorem walk_errors_skipped cfg s :
  valid_config cfg -> reachable cfg s ->
  (forall e rest b,
     exited s = false -> producer s = PWalking (e :: rest) -> we_err e <> None ->
     step cfg (EvProducer b) s = Ready (set_producer (PWalking rest) s)) /\
  (forall path,
     In path (buf (jobs (shared s))) ->
     exists e, In e (dir cfg) /\ we_path e = path /\ we_err e = None /\ we_isDir e = false) /\
  (forall i w path,
     workers s !! i = Some w -> w_pc w = WJob path ->
     exists e, In e (dir cfg) /\ we_path e = path /\ we_err e = None /\ we_isDir e = false) /\
  processed (metrics (shared s)) <= Z.of_nat (validFiles cfg) /\
  failed (metrics (shared s)) <= Z.of_nat (unreadableFiles cfg) /\
  failed (metrics (shared s))
    = Z.of_nat (length (errors (shared s)) + wcount is_pending (workers s)) /\
  Forall (file_error cfg) (errors (shared s)) /\
  (forall i w e,
     workers s !! i = Some w -> w_pc w = WLock e \/ w_pc w = WAppend e ->
     file_error cfg e).
Proof.
  intros Hv Hr.
  destruct (paths_reachable cfg s Hr) as (Hb & _ & Hw & He).
  destruct (count_reachable cfg s Hv Hr) as (_ & _ & Hok & Hbad & _ & Herr).
  repeat split; try lia; try assumption.
  - intros e rest b Hx Hp Hne. unfold step. rewrite Hx, Hp. simpl.
    destruct (we_err e); [|congruence]. simpl. rewrite set_shared_same. reflexivity.
  - intros path Hin. apply In_files. rewrite Forall_forall in Hb. apply Hb.
    apply list_elem_of_In. exact Hin.
  - intros i w path Hl Hpc. apply In_files.
    pose proof (Forall_lookup_1 _ _ _ _ Hw Hl) as H. simpl in H. rewrite Hpc in H.
    exact H.
  - intros i w e Hl Hpc.
    pose proof (Forall_lookup_1 _ _ _ _ Hw Hl) as H. simpl in H.
    destruct Hpc as [Hpc|Hpc]; rewrite Hpc in H; exact H.
Qed.

Lemma walk_errors_skipped_witness :
  step cfg_mixed (EvProducer CaseComm) st_gone
    = Ready (set_producer (PWalking [mkEntry "b" None false]) st_gone) /\
  processed (metrics (shared st_mixed)) <= 2 /\
  failed (metrics (shared st_mixed)) <= 2.
Proof.
  destruct (walk_errors_skipped cfg_mixed st_mixed) as (_ & _ & _ & H1 & H2 & _);
    [solve_valid | solve_reachable sched_mixed |].
  destruct (walk_errors_skipped cfg_mixed st_gone) as (H3 & _);
    [solve_valid
    | solve_reachable (startup 2 ++ repeat (EvProducer CaseComm) 4) |].
  split; [|split; [exact H1 | exact H2]].
  apply (H3 (mkEntry "gone" (Some "lstat: no such file") false)
            [mkEntry "b" None false] CaseComm); [reflexivity | reflexivity | discriminate].
Defined.

(** ** The error log *)

Lemma holder_locked cfg s i w :
  reachable cfg s -> workers s !! i = Some w -> is_holder (w_pc w) = 1%nat ->
  errMu (shared s) = true.
Proof.
  intros Hr Hl Hh. destruct (wiring_reachable cfg s Hr) as (_ & Hmu & _).
  pose proof (wcount_lookup is_holder _ _ _ Hl).
  destruct (errMu (shared s)); [reflexivity | lia].
Qed.

(** The error slice changes only by the append of the worker that holds the
    mutex. *)
Lemma errors_step cfg ev s s' :
  reachable cfg s -> step cfg ev s = Ready s' ->
  errors (shared s') = errors (shared s) \/
  exists i b w e,
    ev = EvWorker i b /\ workers s !! i = Some w /\ w_pc w = WAppend e /\
    errMu (shared s) = true /\ errMu (shared s') = true /\
    errors (shared s') = errors (shared s) ++ [e] /\
    workers s' !! i = Some (mkWorker (w_id w) WUnlock).
Proof.
  intros Hr H.
  destruct ev as [| | | | |i b];
    try solve [left; open_state s; step_cases H; reflexivity].
  destruct (workers s !! i) as [w|] eqn:Hl;
    [|unfold step in H; rewrite Hl in H; destruct (exited s); discriminate].
  destruct (w_pc w) as [| | | |err| |] eqn:Hpc;
    try solve [left; unfold step in H; rewrite Hl, Hpc in H;
               open_state s; step_cases H; reflexivity].
  right. exists i, b, w, err.
  pose proof (holder_locked cfg s i w Hr Hl) as Hmu. rewrite Hpc in Hmu.
  specialize (Hmu eq_refl). pose proof (lookup_lt_Some _ _ _ Hl) as Hlt.
  unfold step in H. rewrite Hl, Hpc in H. destruct (exited s); [discriminate|].
  simpl in H. injection H as <-. simpl.
  repeat split; auto. apply list_lookup_insert_eq. exact Hlt.
Qed.

(** The counter [failed] changes only by the increment of a worker whose
    [processFile] returned an error, and that worker goes on to the lock. *)
Lemma failed_step cfg ev s s' :
  valid_config cfg -> reachable cfg s -> step cfg ev s = Ready s' ->
  failed (metrics (shared s')) = failed (metrics (shared s)) \/
  exists i b w e,
    ev = EvWorker i b /\ workers s !! i = Some w /\ w_pc w = WResult (Some e) /\
    failed (metrics (shared s')) = failed (metrics (shared s)) + 1 /\
    workers s' !! i = Some (mkWorker (w_id w) (WLock e)).
Proof.
  intros Hv Hr H.
  destruct ev as [| | | | |i b];
    try solve [left; open_state s; step_cases H; reflexivity].
  destruct (workers s !! i) as [w|] eqn:Hl;
    [|unfold step in H; rewrite Hl in H; destruct (exited s); discriminate].
  destruct (w_pc w) as [| |[e|]| | | |] eqn:Hpc;
    try solve [left; unfold step in H; rewrite Hl, Hpc in H;
               open_state s; step_cases H; reflexivity].
  right. exists i, b, w, e.
  pose proof (files_bound cfg Hv) as Hb.
  destruct (count_reachable cfg s Hv Hr) as (_ & Hf0 & _ & Hbad & _).
  pose proof (wcount_lookup (inflight_bad (fsys cfg)) _ _ _ Hl) as Hc.
  rewrite Hpc in Hc. simpl in Hc. unfold pending_bad in Hbad.
  pose proof (lookup_lt_Some _ _ _ Hl) as Hlt.
  unfold step in H. rewrite Hl, Hpc in H. destruct (exited s); [discriminate|].
  simpl in H. injection H as <-. simpl.
  rewrite add1_small by lia.
  repeat split; auto. apply list_lookup_insert_eq. exact Hlt.
Qed.

Lemma step_worker cfg s i b w :
  exited s = false -> workers s !! i = Some w ->
  step cfg (EvWorker i b) s =
    Res_bind (worker (fsys cfg) b (w_id w) (w_pc w) (shared s))
      (fun '(pc, sh) =>
         Ready (set_workers (<[i := mkWorker (w_id w) pc]> (workers s)) (set_shared sh s))).
Proof. intros Hx Hl. unfold step. rewrite Hx, Hl. reflexivity. Qed.

(** A worker whose [processFile] fails, left to run with the mutex free:
    it counts the failure, locks, appends the one record, unlocks and is
    back at its [select]. *)
Lemma error_pipeline cfg s i b w path e out :
  valid_config cfg -> reachable cfg s ->
  exited s = false -> workers s !! i = Some w -> w_pc w = WJob path ->
  processFile (fsys cfg) path = Ready (Some e, out) -> errMu (shared s) = false ->
  exists s',
    run cfg (repeat (EvWorker i b) 5) s = Ready s' /\
    failed (metrics (shared s')) = failed (metrics (shared s)) + 1 /\
    processed (metrics (shared s')) = processed (metrics (shared s)) /\
    errors (shared s') = errors (shared s) ++ [e] /\
    errMu (shared s') = false /\
    workers s' !! i = Some (mkWorker (w_id w) WSelect).
Proof.
  intros Hv Hr Hx Hl Hpc Hpf Hmu.
  pose proof (files_bound cfg Hv) as Hb.
  destruct (count_reachable cfg s Hv Hr) as (_ & Hf0 & _ & Hbad & _).
  pose proof (wcount_lookup (inflight_bad (fsys cfg)) _ _ _ Hl) as Hc.
  rewrite Hpc in Hc. simpl in Hc. unfold pending_bad in Hbad.
  assert (Hok : bad_path (fsys cfg) path = true).
  { unfold processFile in Hpf. unfold bad_path.
    destruct (fsys cfg path); [reflexivity | reflexivity | discriminate | discriminate]. }
  rewrite Hok in Hc.
  pose proof (lookup_lt_Some _ _ _ Hl) as Hlt.
  assert (Hlk : forall (ws : list Worker) (x : Worker),
             length ws = length (workers s) -> <[i := x]> ws !! i = Some x)
    by (intros ws x Hlen; apply list_lookup_insert_eq; lia).
  destruct w as [id pc]. simpl in *. subst pc.
  open_state s. simpl in *. subst.
  unfold run, repeat.
  rewrite (step_worker _ _ _ _ _ Hx Hl). simpl. rewrite Hpf. simpl.
  erewrite step_worker; [|exact Hx | simpl; apply Hlk; reflexivity]. simpl.
  erewrite step_worker;
    [|exact Hx | simpl; apply Hlk; rewrite !length_insert; reflexivity]. simpl.
  erewrite step_worker;
    [|exact Hx | simpl; apply Hlk; rewrite !length_insert; reflexivity]. simpl.
  erewrite step_worker;
    [|exact Hx | simpl; apply Hlk; rewrite !length_insert; reflexivity]. simpl.
  eexists. split; [reflexivity|]. simpl.
  rewrite add1_small by lia.
  repeat split. apply Hlk. rewrite !length_insert. reflexivity.
Qed.

(** C8 (as amended). Every failure counted in [failed] has its record, the
    [processFile] error naming the path and the cause, in the error slice or
    in the hands of the worker that is about to append it; [failed] grows
    only by one, by a worker whose [processFile] failed and that then
    proceeds to the lock; the slice grows only at its end, by one record, by
    the worker holding the mutex, which then unlocks and returns to the
    [select]; a worker whose [processFile] fails and that runs on with the
    mutex free does all of this in five steps.  In a run that completes
    without an interrupt and that started with at least one worker the
    number of records equals [failed] and the summary prints them in the
    order of the appends. *)
Theorem error_log cfg s :
  valid_config cfg -> reachable cfg s ->
  failed (metrics (shared s))
    = Z.of_nat (length (errors (shared s)) + wcount is_pending (workers s)) /\
  Forall (file_error cfg) (errors (shared s)) /\
  (forall ev s', step cfg ev s = Ready s' ->
     (failed (metrics (shared s')) = failed (metrics (shared s)) \/
      exists i b w e,
        ev = EvWorker i b /\ workers s !! i = Some w /\ w_pc w = WResult (Some e) /\
        failed (metrics (shared s')) = failed (metrics (shared s)) + 1 /\
        workers s' !! i = Some (mkWorker (w_id w) (WLock e))) /\
     (errors (shared s') = errors (shared s) \/
      exists i b w e,
        ev = EvWorker i b /\ workers s !! i = Some w /\ w_pc w = WAppend e /\
        errMu (shared s) = true /\ errMu (shared s') = true /\
        errors (shared s') = errors (shared s) ++ [e] /\
        workers s' !! i = Some (mkWorker (w_id w) WUnlock))) /\
  (forall i b w,
     exited s = false -> workers s !! i = Some w -> w_pc w = WUnlock ->
     exists s', step cfg (EvWorker i b) s = Ready s' /\
                workers s' !! i = Some (mkWorker (w_id w) WSelect) /\
                errMu (shared s') = false) /\
  (forall i b w path e out,
     exited s = false -> workers s !! i = Some w -> w_pc w = WJob path ->
     processFile (fsys cfg) path = Ready (Some e, out) -> errMu (shared s) = false ->
     exists s',
       run cfg (repeat (EvWorker i b) 5) s = Ready s' /\
       failed (metrics (shared s')) = failed (metrics (shared s)) + 1 /\
       processed (metrics (shared s')) = processed (metrics (shared s)) /\
       errors (shared s') = errors (shared s) ++ [e] /\
       errMu (shared s') = false /\
       workers s' !! i = Some (mkWorker (w_id w) WSelect)) /\
  (1 <= initWorkers cfg -> uncancelled s -> mainPc s = MDone ->
   Z.of_nat (length (errors (shared s))) = failed (metrics (shared s)) /\
   summary (stdout (shared s)) =
     [LComplete; LFilesProcessed (processed (metrics (shared s)));
      LFilesFailed (failed (metrics (shared s)))]
     ++ errorLines (errors (shared s))).
Proof.
  intros Hv Hr.
  destruct (paths_reachable cfg s Hr) as (_ & _ & _ & He).
  destruct (count_reachable cfg s Hv Hr) as (_ & _ & _ & _ & _ & Herr).
  split; [exact Herr|]. split; [exact He|]. split; [|split; [|split]].
  - intros ev s' H. split; [eapply failed_step | eapply errors_step]; eauto.
  - intros i b w Hx Hl Hpc.
    pose proof (holder_locked cfg s i w Hr Hl) as Hmu. rewrite Hpc in Hmu.
    specialize (Hmu eq_refl). pose proof (lookup_lt_Some _ _ _ Hl) as Hlt.
    eexists. unfold step. rewrite Hx, Hl, Hpc. simpl. rewrite Hmu. simpl.
    repeat split. simpl. apply list_lookup_insert_eq. exact Hlt.
  - intros i b w path e out Hx Hl Hpc He' Hmu.
    eapply error_pipeline; eauto.
  - intros Hi Hu Hm.
    destruct (completed_run cfg s Hv Hi Hr Hu Hm) as (H1 & H2 & H3 & H4).
    split; [exact H3|]. rewrite H1, H2. exact H4.
Qed.

Lemma error_log_witness :
  Z.of_nat (length (errors (shared st_mixed))) = failed (metrics (shared st_mixed)) /\
  summary (stdout (shared st_mixed)) =
    [LComplete; LFilesProcessed 2; LFilesFailed 2; LSomeErrors;
     LError (ErrMsg "open bad: permission denied");
     LError (ErrMsg "hash torn: input/output error")].
Proof.
  destruct (error_log cfg_mixed st_mixed) as (_ & _ & _ & _ & _ & H);
    [solve_valid | solve_reachable sched_mixed |].
  apply H; [simpl; lia | reflexivity | reflexivity].
Defined.

(** Counterexample to C8 as stated: neither an initial worker nor the
    absence of an interrupt alone makes the summary show as many records as
    [failed] counts.  In both runs [main] prints a failed count of 1 and no
    record. *)
Lemma error_log_counterexample :
  ~ (forall cfg evs s,
       valid_config cfg -> 1 <= initWorkers cfg ->
       run cfg evs init = Ready s -> mainPc s = MDone ->
       Z.of_nat (length (errors (shared s))) = failed (metrics (shared s))) /\
  ~ (forall cfg evs s,
       valid_config cfg -> uncancelled s ->
       run cfg evs init = Ready s -> mainPc s = MDone ->
       Z.of_nat (length (errors (shared s))) = failed (metrics (shared s))).
Proof.
  split; intros H.
  - specialize (H cfg_race sched_race st_race).
    assert (H1 : Z.of_nat (length (errors (shared st_race)))
                 = failed (metrics (shared st_race)))
      by (apply H; [solve_valid | simpl; lia | vm_compute; reflexivity | reflexivity]).
    vm_compute in H1. discriminate H1.
  - specialize (H cfg_zero_race sched_zero_race st_zero_race).
    assert (H1 : Z.of_nat (length (errors (shared st_zero_race)))
                 = failed (metrics (shared st_zero_race)))
      by (apply H; [solve_valid | reflexivity | vm_compute; reflexivity | reflexivity]).
    vm_compute in H1. discriminate H1.
Qed.

(** ** The counters and the jobs dequeued *)

Lemma counted_step cfg ev s s' :
  valid_config cfg -> reachable cfg s -> step cfg ev s = Ready s' ->
  counted s' + Z.of_nat (wcount is_inflight (workers s'))
    = counted s + Z.of_nat (wcount is_inflight (workers s))
      + (if is_dequeue s ev then 1 else 0).
Proof.
  intros Hv Hr H. pose proof (files_bound cfg Hv) as Hb.
  destruct (count_reachable cfg s Hv Hr) as (Hp0 & Hf0 & Hok & Hbad & _ & _).
  unfold is_dequeue, counted, pending_ok, pending_bad in *.
  open_state s. simpl in *. destruct ev; step_cases H.
  all: repeat match goal with
       | Hl : ?ws !! ?i = Some ?w |- _ =>
         pose proof (wcount_lookup (inflight_ok (fsys cfg)) ws i w Hl);
         pose proof (wcount_lookup (inflight_bad (fsys cfg)) ws i w Hl);
         revert Hl
       end; intros.
  all: wfacts; simpl in *; rewrite ?add1_small by lia; try lia.
  all: destruct b; simpl in *; lia.
Qed.

(** Each step leaves both counters alone or adds one to exactly one of
    them, and then it is the step of a worker whose [processFile] has just
    returned: [processed] on success, [failed] on an error. *)
Lemma counters_step cfg ev s s' :
  valid_config cfg -> reachable cfg s -> step cfg ev s = Ready s' ->
  metrics (shared s') = metrics (shared s) \/
  exists i b w r,
    ev = EvWorker i b /\ workers s !! i = Some w /\ w_pc w = WResult r /\
    metrics (shared s') =
      match r with
      | None => mkMetrics (processed (metrics (shared s)) + 1) (failed (metrics (shared s)))
      | Some _ => mkMetrics (processed (metrics (shared s))) (failed (metrics (shared s)) + 1)
      end.
Proof.
  intros Hv Hr H.
  destruct ev as [| | | | |i b];
    try solve [left; open_state s; step_cases H; reflexivity].
  destruct (workers s !! i) as [w|] eqn:Hl;
    [|unfold step in H; rewrite Hl in H; destruct (exited s); discriminate].
  destruct (w_pc w) as [| |r| | | |] eqn:Hpc;
    try solve [left; unfold step in H; rewrite Hl, Hpc in H;
               open_state s; step_cases H; reflexivity].
  right. exists i, b, w, r.
  pose proof (files_bound cfg Hv) as Hb.
  destruct (count_reachable cfg s Hv Hr) as (Hp0 & Hf0 & Hok & Hbad & _).
  pose proof (wcount_lookup (inflight_ok (fsys cfg)) _ _ _ Hl) as Hc1.
  pose proof (wcount_lookup (inflight_bad (fsys cfg)) _ _ _ Hl) as Hc2.
  rewrite Hpc in Hc1, Hc2. unfold pending_ok, pending_bad in *.
  unfold step in H. rewrite Hl, Hpc in H. destruct (exited s); [discriminate|].
  destruct r; simpl in *; injection H as <-; simpl;
    rewrite add1_small by lia; auto.
Qed.

Lemma dequeued_run cfg evs :
  valid_config cfg ->
  forall s0 s, reachable cfg s0 -> run cfg evs s0 = Ready s ->
  counted s + Z.of_nat (wcount is_inflight (workers s))
    = counted s0 + Z.of_nat (wcount is_inflight (workers s0))
      + Z.of_nat (dequeued cfg evs s0).
Proof.
  intros Hv. induction evs as [|ev evs IH]; intros s0 s Hr H; simpl in *.
  - injection H as <-. lia.
  - destruct (step cfg ev s0) as [s1| |] eqn:E; simpl in H; try discriminate.
    pose proof (counted_step cfg ev s0 s1 Hv Hr E) as H1.
    pose proof (IH s1 s (reachable_step cfg ev s0 s1 Hr E) H) as H2.
    destruct (is_dequeue s0 ev); lia.
Qed.

(** C5. At every point of every run the two counters together equal the
    number of jobs dequeued so far less the jobs a worker holds and has not
    yet counted, so they never exceed the number dequeued; and every step
    either leaves both counters as they are or adds one to exactly one of
    them, for a job whose [processFile] has returned.  Nothing decrements a
    counter. *)
Theorem counters_bounded cfg evs s :
  valid_config cfg -> run cfg evs init = Ready s ->
  counted s + Z.of_nat (wcount is_inflight (workers s))
    = Z.of_nat (dequeued cfg evs init) /\
  counted s <= Z.of_nat (dequeued cfg evs init) /\
  forall ev s', step cfg ev s = Ready s' ->
    counted s <= counted s' /\
    (metrics (shared s') = metrics (shared s) \/
     exists i b w r,
       ev = EvWorker i b /\ workers s !! i = Some w /\ w_pc w = WResult r /\
       metrics (shared s') =
         match r with
         | None => mkMetrics (processed (metrics (shared s)) + 1)
                             (failed (metrics (shared s)))
         | Some _ => mkMetrics (processed (metrics (shared s)))
                               (failed (metrics (shared s)) + 1)
         end).
Proof.
  intros Hv Hrun.
  pose proof (dequeued_run cfg evs Hv init s (reachable_init cfg) Hrun) as H.
  unfold counted at 2 in H. simpl in H.
  assert (Hr : reachable cfg s) by (exists evs; exact Hrun).
  split; [lia|]. split; [lia|].
  intros ev s' Hs. pose proof (counters_step cfg ev s s' Hv Hr Hs) as Hc.
  split; [|exact Hc].
  unfold counted.
  destruct Hc as [->|(i & b & w & r & _ & _ & _ & ->)]; [lia|].
  destruct r; simpl; lia.
Qed.

Lemma counters_bounded_witness :
  counted st_mixed + Z.of_nat (wcount is_inflight (workers st_mixed))
    = Z.of_nat (dequeued cfg_mixed sched_mixed init) /\
  counted st_mixed <= Z.of_nat (dequeued cfg_mixed sched_mixed init).
Proof.
  destruct (counters_bounded cfg_mixed sched_mixed st_mixed) as (H1 & H2 & _);
    [solve_valid | vm_compute; reflexivity |].
  split; [exact H1 | exact H2].
Defined.

(** ** Workers and the closed queue *)

(** C6. While the context is not cancelled a worker returns only from its
    [select], by the receive, and only when the queue is closed and empty;
    that step touches neither the counters nor the error slice, so the closed
    signal is not processed as a job.  Every job a worker takes is the head
    of the buffer, a path the walker sent.  Once any worker has returned the
    queue is closed and empty, and when the last worker returns every file
    the walk enumerated has been counted. *)
Theorem worker_exit_drained cfg s i b w s' w' :
  valid_config cfg -> reachable cfg s -> cancelled (shared s) = false ->
  workers s !! i = Some w -> step cfg (EvWorker i b) s = Ready s' ->
  workers s' !! i = Some w' ->
  (w_pc w' = WExited ->
   w_pc w = WSelect /\ b = CaseComm /\
   closed (jobs (shared s)) = true /\ buf (jobs (shared s)) = [] /\
   jobs (shared s') = jobs (shared s) /\
   metrics (shared s') = metrics (shared s) /\
   errors (shared s') = errors (shared s) /\
   stdout (shared s') = stdout (shared s) /\
   (wcount is_live (workers s') = O ->
    processed (metrics (shared s')) = Z.of_nat (validFiles cfg) /\
    failed (metrics (shared s')) = Z.of_nat (unreadableFiles cfg))) /\
  (forall path,
     w_pc w' = WJob path ->
     w_pc w = WSelect /\ b = CaseComm /\
     buf (jobs (shared s)) = path :: buf (jobs (shared s')) /\
     In path (files (dir cfg))) /\
  ((0 < wcount is_exited (workers s))%nat ->
   closed (jobs (shared s)) = true /\ buf (jobs (shared s)) = []).
Proof.
  intros Hv Hr Hu Hl H Hl'.
  assert (Hr' : reachable cfg s') by (eapply reachable_step; eauto).
  destruct (drain_reachable cfg s Hv Hr) as (_ & Hex & _).
  destruct (paths_reachable cfg s Hr) as (Hb & _).
  destruct (count_reachable cfg s' Hv Hr') as (_ & _ & _ & _ & Hunc' & _).
  destruct (wiring_reachable cfg s' Hr') as (_ & _ & Hcl' & _).
  pose proof (inflight_ok_busy (fsys cfg) (workers s')) as Hob.
  pose proof (inflight_bad_busy (fsys cfg) (workers s')) as Hbb.
  pose proof (busy_live (workers s')) as Hbl.
  unfold pending_ok, pending_bad in *.
  pose proof (lookup_lt_Some _ _ _ Hl) as Hlt.
  split; [|split; [|exact (Hex Hu)]].
  - intros Hpc'. unfold step in H. rewrite Hl in H.
    destruct (exited s) eqn:Hx; [discriminate|].
    destruct w as [id pc]. simpl in *.
    open_state s. simpl in *. subst.
    step_cases H; rewrite list_lookup_insert_eq in Hl' by assumption;
      injection Hl' as <-; simpl in Hpc'; try discriminate.
    repeat split; auto.
    all: destruct (Hunc' eq_refl) as [H1 H2]; simpl in *.
    all: destruct producer0; try discriminate; simpl in *; lia.
  - intros path Hpc'. unfold step in H. rewrite Hl in H.
    destruct (exited s) eqn:Hx; [discriminate|].
    destruct w as [id pc]. simpl in *.
    open_state s. simpl in *. subst.
    step_cases H; rewrite list_lookup_insert_eq in Hl' by assumption;
      injection Hl' as <-; simpl in Hpc'; try discriminate.
    injection Hpc' as <-. apply Forall_cons in Hb as [Hin _]. auto.
Qed.

Lemma worker_exit_drained_witness :
  closed (jobs (shared st_drain)) = true /\ buf (jobs (shared st_drain)) = [] /\
  metrics (shared st_drained) = mkMetrics 2 2.
Proof.
  destruct (worker_exit_drained cfg_mixed st_drain 0%nat CaseComm
              (mkWorker 0 WSelect) st_drained (mkWorker 0 WExited)) as (H & _);
    [solve_valid | solve_reachable sched_drain | reflexivity | reflexivity
    | vm_compute; reflexivity | reflexivity |].
  destruct (H eq_refl) as (_ & _ & H1 & H2 & _ & H3 & _).
  split; [exact H1 | split; [exact H2 | rewrite H3; reflexivity]].
Defined.

(** ** The queue protocol of the walker *)

Lemma return_step cfg ev s s' :
  inv_return s -> step cfg ev s = Ready s' -> inv_return s'.
Proof.
  unfold inv_return. intros Hi H. open_state s. destruct ev; step_cases H; auto.
  all: repeat match goal with
       | |- context [match ?x with _ => _ end] => destruct x
       end; intuition auto.
Qed.

Lemma return_reachable cfg s : reachable cfg s -> inv_return s.
Proof.
  revert s. apply reachable_ind; [exact I|].
  intros ev s s' _ Hs H. exact (return_step cfg ev s s' Hs H).
Qed.

(** After the close only receives touch the queue. *)
Lemma closed_step cfg ev s s' :
  inv_wiring s -> step cfg ev s = Ready s' ->
  (closed (jobs (shared s)) = true ->
   closed (jobs (shared s')) = true /\
   (buf (jobs (shared s')) = buf (jobs (shared s)) \/
    exists path, buf (jobs (shared s)) = path :: buf (jobs (shared s')))) /\
  (closed (jobs (shared s)) = false -> closed (jobs (shared s')) = true ->
   exists b err, ev = EvProducer b /\ producer s = PReturn err /\ producer s' = PExited /\
                 buf (jobs (shared s')) = buf (jobs (shared s))).
Proof.
  intros (_ & _ & Hcl & _) H. open_state s. destruct ev; step_cases H.
  all: split; intros; try discriminate; try congruence; eauto.
  all: try (split; [assumption || reflexivity | eauto]).
  all: eexists _, _; repeat split.
Qed.

(** Under a cancelled context the walker goroutine, when it is scheduled,
    gives up the walk and closes the queue, whatever the queue holds. *)
Lemma abandon_run cfg rest :
  forall s,
    exited s = false -> cancelled (shared s) = true ->
    closed (jobs (shared s)) = false -> producer s = PWalking rest ->
    exists s',
      run cfg (abandon rest) s = Ready s' /\ producer s' = PExited /\
      closed (jobs (shared s')) = true /\
      buf (jobs (shared s')) = buf (jobs (shared s)).
Proof.
  induction rest as [|e rest IH]; intros s Hx Hc Hcl Hp.
  - destruct s as [sh m sg r sc p ws]. unfold exited in *. simpl in *. subst p.
    unfold step, exited, walker, chan_close. simpl. rewrite Hx. simpl.
    rewrite Hx. simpl. rewrite Hcl. simpl. eexists. repeat split.
  - destruct s as [sh m sg r sc p ws]. unfold exited in *. simpl in *. subst p.
    unfold enqueued.
    destruct (we_err e) eqn:E1; [|destruct (we_isDir e) eqn:E2]; simpl.
    + unfold step at 1, exited, walker. simpl. rewrite Hx, E1. simpl.
      apply (IH (mkState sh m sg r sc (PWalking rest) ws)); auto.
    + unfold step at 1, exited, walker. simpl. rewrite Hx, E1, E2. simpl.
      apply (IH (mkState sh m sg r sc (PWalking rest) ws)); auto.
    + unfold step, exited, walker, chan_close. simpl. rewrite Hx, E1, E2, Hc. simpl.
      rewrite Hx. simpl. rewrite Hcl. simpl. eexists. repeat split.
Qed.

(** C7 (as amended). The walker's send blocks while the queue holds 100
    jobs and the context is not cancelled; with room it appends the path at
    the tail; once the context is cancelled the [ctx.Done()] case makes the
    walk return [context.Canceled] without queueing the job or any later one.
    The queue is closed by the walker goroutine only, by the one step after
    [filepath.Walk] has returned [nil] or [context.Canceled], after which the
    goroutine is gone: the queue is closed at most once; no step of any
    goroutine panics, and once the queue is closed it is never reopened and
    never grows.  The queue is closed whenever the walker goroutine gets to
    its end before the process exits: under a cancelled context the walker,
    when scheduled, closes the queue without another send, and in a run
    without interrupt that started with at least one worker the queue is
    closed when [wg.Wait()] returns. *)
Theorem queue_protocol cfg s :
  reachable cfg s ->
  (forall e rest,
     exited s = false -> producer s = PWalking (e :: rest) -> enqueued e = true ->
     (chan_len (jobs (shared s)) = 100 -> step cfg (EvProducer CaseComm) s = Block) /\
     (chan_len (jobs (shared s)) < 100 ->
      step cfg (EvProducer CaseComm) s =
        Ready (set_producer (PWalking rest)
                 (set_shared (set_jobs (mkChan (buf (jobs (shared s)) ++ [we_path e]) 100 false)
                                       (shared s)) s))) /\
     (cancelled (shared s) = false -> step cfg (EvProducer CaseDone) s = Block) /\
     (cancelled (shared s) = true ->
      step cfg (EvProducer CaseDone) s
        = Ready (set_producer (PReturn (Some ErrCanceled)) s))) /\
  (forall err b,
     exited s = false -> producer s = PReturn err ->
     (err = None \/ err = Some ErrCanceled /\ cancelled (shared s) = true) /\
     step cfg (EvProducer b) s =
       Ready (set_producer PExited
                (set_shared (set_jobs (mkChan (buf (jobs (shared s))) 100 true)
                                      (shared s)) s))) /\
  (producer s = PExited -> forall b, step cfg (EvProducer b) s = Block) /\
  (closed (jobs (shared s)) = true <-> producer s = PExited) /\
  (forall ev, step cfg ev s <> Panic) /\
  (forall ev s', step cfg ev s = Ready s' ->
     (closed (jobs (shared s)) = true ->
      closed (jobs (shared s')) = true /\
      (buf (jobs (shared s')) = buf (jobs (shared s)) \/
       exists path, buf (jobs (shared s)) = path :: buf (jobs (shared s')))) /\
     (closed (jobs (shared s)) = false -> closed (jobs (shared s')) = true ->
      exists b err, ev = EvProducer b /\ producer s = PReturn err /\
                    producer s' = PExited /\
                    buf (jobs (shared s')) = buf (jobs (shared s)))) /\
  (forall rest,
     exited s = false -> cancelled (shared s) = true -> producer s = PWalking rest ->
     exists s',
       run cfg (abandon rest) s = Ready s' /\ producer s' = PExited /\
       closed (jobs (shared s')) = true /\
       buf (jobs (shared s')) = buf (jobs (shared s))) /\
  (valid_config cfg -> 1 <= initWorkers cfg -> uncancelled s ->
   post_wait (mainPc s) = true ->
   closed (jobs (shared s)) = true /\ producer s = PExited).
Proof.
  intros Hr. pose proof (wiring_reachable cfg s Hr) as Hw.
  pose proof (return_reachable cfg s Hr) as Hret.
  destruct Hw as (Hwg & Hmu & Hcl & Hcap & Hlen & Hrest).
  repeat match goal with |- _ /\ _ => split end.
  - intros e rest Hx Hp He. unfold enqueued in He.
    destruct (we_err e) eqn:E1; [discriminate|].
    destruct (we_isDir e) eqn:E2; [discriminate|].
    rewrite Hp in Hcl.
    unfold step, walker, chan_send. rewrite Hx, Hp, E1, E2, Hcl, Hcap. simpl.
    repeat split.
    + intros ->. reflexivity.
    + intros Hlt. apply Z.ltb_lt in Hlt. rewrite Hlt. reflexivity.
    + intros ->. reflexivity.
    + intros ->. simpl. rewrite set_shared_same. reflexivity.
  - intros err b Hx Hp. unfold inv_return in Hret. rewrite Hp in Hret, Hcl.
    split.
    + destruct err as [e|]; [right|left; reflexivity].
      destruct Hret as [-> ->]. auto.
    + unfold step, walker, chan_close. rewrite Hx, Hp. simpl.
      destruct err as [e|]; [destruct Hret as [-> _]|]; simpl;
        rewrite Hcl, Hcap; reflexivity.
  - intros Hp b. unfold step. rewrite Hp. destruct (exited s); reflexivity.
  - rewrite Hcl. destruct (producer s); split; congruence.
  - intros ev. apply step_no_panic. exact (wiring_reachable cfg s Hr).
  - intros ev s' H. exact (closed_step cfg ev s s' (wiring_reachable cfg s Hr) H).
  - intros rest Hx Hc Hp. apply abandon_run; auto.
    rewrite Hcl, Hp. reflexivity.
  - intros Hv Hi Hu Hpw.
    destruct (drain_reachable cfg s Hv Hr) as (_ & _ & Hpost & _).
    destruct (Hpost Hu Hpw Hi) as (Hc & _). split; [exact Hc|].
    rewrite Hcl in Hc. destruct (producer s); try discriminate Hc; reflexivity.
Qed.

Lemma queue_protocol_witness :
  chan_len (jobs (shared st_full)) = 100 /\
  step cfg_full (EvProducer CaseComm) st_full = Block /\
  step cfg_full (EvProducer CaseDone) st_full = Block.
Proof.
  destruct (queue_protocol cfg_full st_full) as (H & _);
    [solve_reachable sched_full |].
  destruct (H (mkEntry (String (Ascii.ascii_of_nat 148) EmptyString) None false) []
              eq_refl eq_refl eq_refl) as (H1 & _ & H2 & _).
  split; [reflexivity | split; [apply H1; reflexivity | apply H2; reflexivity]].
Defined.

(** Counterexample to C7 as stated: the queue is not closed in every run.
    In the first run an interrupt arrives while the walker stands before a
    file, and the workers and [main] return before the walker is scheduled
    again; in the second there is no initial worker and no interrupt, and
    [main] returns before the walker goroutine has run.  Both processes end
    with the queue open. *)
Lemma queue_protocol_counterexample :
  ~ (forall cfg evs s,
       valid_config cfg -> 1 <= initWorkers cfg ->
       run cfg evs init = Ready s -> mainPc s = MDone ->
       closed (jobs (shared s)) = true) /\
  ~ (forall cfg evs s,
       valid_config cfg -> uncancelled s ->
       run cfg evs init = Ready s -> mainPc s = MDone ->
       closed (jobs (shared s)) = true).
Proof.
  split; intros H.
  - specialize (H cfg_stop sched_stopped st_stopped).
    assert (H1 : closed (jobs (shared st_stopped)) = true)
      by (apply H; [solve_valid | simpl; lia | vm_compute; reflexivity | reflexivity]).
    vm_compute in H1. discriminate H1.
  - specialize (H cfg_zero sched_unwalked st_unwalked).
    assert (H1 : closed (jobs (shared st_unwalked)) = true)
      by (apply H; [solve_valid | reflexivity | vm_compute; reflexivity | reflexivity]).
    vm_compute in H1. discriminate H1.
Qed.

(** ** Logical scale-down and the real number of workers *)

Lemma scalerTick_bound q wid act sh wid' act' sh' sp :
  Int64.in_range act ->
  scalerTick q wid act sh = Ready (SSelect wid' act', sh', sp) ->
  act' <= Z.max act maxWorkers.
Proof.
  unfold scalerTick, scaleUp, spawn, wg_add, Res_bind, maxWorkers, minWorkers,
    Int64.in_range, Int64.min_int, Int64.max_int.
  simpl. intros Hr H. break_match H; injection H as <- <- <- <-; bool_hyps.
  all: repeat match goal with
       | |- context [Int64.add ?x 1] =>
         rewrite (add_small x 1)
           by (unfold Int64.in_range, Int64.min_int, Int64.max_int; lia)
       | H : context [Int64.add ?x 1] |- _ =>
         rewrite (add_small x 1) in H
           by (unfold Int64.in_range, Int64.min_int, Int64.max_int; lia)
       | |- context [Int64.sub ?x 1] =>
         rewrite (sub_small x 1)
           by (unfold Int64.in_range, Int64.min_int, Int64.max_int; lia)
       end; lia.
Qed.

(** The tracked count never passes the larger of [maxWorkers] and the
    initial worker count. *)
Lemma tracked_bounded cfg s a :
  valid_config cfg -> reachable cfg s -> tracked s = Some a ->
  a <= Z.max (initWorkers cfg) maxWorkers.
Proof.
  intros Hv Hr. revert a. revert s Hr.
  apply (reachable_ind cfg (fun s => forall a, tracked s = Some a ->
                                      a <= Z.max (initWorkers cfg) maxWorkers)).
  - intros a H. discriminate H.
  - intros ev s s' Hr IH H a Ha.
    pose proof (scaler_reachable cfg s Hv Hr) as Hrange.
    unfold tracked, inv_scaler in *.
    destruct ev; try solve [open_state s; step_cases H; first [apply IH; assumption
      | injection Ha as <-; lia]].
    unfold step in H. destruct (exited s); [discriminate|].
    unfold workerAutoscaler, Res_bind in H.
    destruct (scaler s) as [|wid act|q wid act|] eqn:E; try discriminate.
    + destruct b; [destruct (cancelled (shared s)); [|discriminate]|];
        injection H as <-; simpl in *; try discriminate.
      injection Ha as <-. apply IH. reflexivity.
    + destruct (scalerTick q wid act (shared s)) as [[[pc sh'] sp]| |] eqn:Ht;
        try discriminate.
      injection H as <-. simpl in *.
      destruct (scalerTick_inv _ _ _ _ _ _ _ Ht) as (wid' & act' & _ & _ & -> & _).
      injection Ha as <-.
      pose proof (scalerTick_bound _ _ _ _ _ _ _ _ Hrange Ht).
      specialize (IH act eq_refl). lia.
Qed.

(** C9. There is a run, from twenty initial workers, along which the
    tracked count never exceeds [maxWorkers] = 20 and at whose end twenty-two
    spawned workers are still running: two logical scale-downs stopped
    nobody, and the scale-up that followed compared the lowered count with
    [maxWorkers]. *)
Theorem running_exceeds_max :
  run cfg_over sched_over init = Ready st_over /\
  forallb (tracked_le maxWorkers) (trace cfg_over sched_over init) = true /\
  tracked st_over = Some 20 /\
  wcount is_live (workers st_over) = 22%nat /\
  (Z.to_nat maxWorkers < wcount is_live (workers st_over))%nat.
Proof.
  repeat split; try (vm_compute; reflexivity). vm_compute. lia.
Qed.

(** ** Shutdown after cancellation *)

Lemma find_ready_Some ready ws k i :
  find_ready ready ws k = Some i ->
  exists w, ws !! (i - k)%nat = Some w /\ ready (w_pc w) = true /\ (k <= i)%nat.
Proof.
  revert k. induction ws as [|x ws IH]; intros k H; simpl in H; [discriminate|].
  destruct (ready (w_pc x)) eqn:E.
  - injection H as <-. exists x. rewrite Nat.sub_diag. auto.
  - destruct (IH (S k) H) as (w & Hl & Hr & Hle). exists w.
    replace (i - k)%nat with (S (i - S k)) by lia. simpl. repeat split; auto. lia.
Qed.

Lemma find_ready_None ready ws k f :
  find_ready ready ws k = None ->
  (forall pc, ready pc = false -> f pc = O) ->
  wcount f ws = O.
Proof.
  intros H Hf. revert k H. induction ws as [|x ws IH]; intros k H; simpl in *; [auto|].
  destruct (ready (w_pc x)) eqn:E; [discriminate|].
  rewrite (Hf _ E), (IH (S k) H). reflexivity.
Qed.

Lemma find_runnable_None mu ws k :
  find_ready (runnable mu) ws k = None ->
  wcount is_holder ws = O /\ (mu = false -> wcount is_live ws = O).
Proof.
  intros H. split; [|intros ->]; apply (find_ready_None _ _ _ _ H);
    intros []; simpl; try discriminate; reflexivity.
Qed.

Lemma processFile_returns fs path :
  returns fs path = true -> exists r out, processFile fs path = Ready (r, out).
Proof.
  unfold returns, processFile. destruct (fs path); intros H; try discriminate H; eauto.
Qed.

(** Under a cancelled context, with no worker inside a call of
    [processFile] that does not return, the scheduled event is enabled,
    brings the run closer to the exit of the process and leaves the queue
    alone. *)
Lemma shutdown_progress cfg s :
  valid_config cfg -> reachable cfg s ->
  cancelled (shared s) = true -> exited s = false -> inflight_return cfg s ->
  exists s',
    step cfg (next_event s) s = Ready s' /\
    (potential cfg s' < potential cfg s)%nat /\
    cancelled (shared s') = true /\
    jobs (shared s') = jobs (shared s) /\
    inflight_return cfg s'.
Proof.
  intros Hv Hr Hc Hx Hh. pose proof Hv as [[Hv0 Hv1] _].
  destruct (wiring_reachable cfg s Hr) as (Hwg & Hmu & _).
  destruct (drain_reachable cfg s Hv Hr) as (Hsp & _).
  unfold next_event, potential, inflight_return in *.
  pose proof Hx as Hx'. unfold exited in Hx'.
  destruct (mainPc s) eqn:Hm; try discriminate Hx'.
  all: try solve [eexists; unfold step, main; rewrite Hx, Hm; simpl;
                  repeat split; simpl; auto; lia].
  - (* the spawn loop *)
    destruct Hsp as [Hlen Hle].
    unfold step, main, spawn, wg_add, Res_bind. rewrite Hx, Hm.
    destruct (i <? initWorkers cfg) eqn:Hi; bool_hyps.
    + replace (wg (shared s) + 1 <? 0) with false
        by (symmetry; apply Z.ltb_ge; lia).
      eexists. split; [reflexivity|]. simpl. rewrite !wcount_app. simpl.
      rewrite add1_small by lia. repeat split; auto; lia.
    + eexists. split; [reflexivity|]. simpl. repeat split; auto; lia.
  - (* the wait *)
    destruct (find_ready (runnable (errMu (shared s))) (workers s) 0)
      as [i|] eqn:Hf.
    + destruct (find_ready_Some _ _ _ _ Hf) as (w & Hl & Hrun & _).
      rewrite Nat.sub_0_r in Hl.
      pose proof (wcount_lookup is_live _ _ _ Hl) as Hlive.
      pose proof (wcount_lookup is_holder _ _ _ Hl) as Hhold.
      pose proof (wcount_lookup (is_hung (fsys cfg)) _ _ _ Hl) as Hhung.
      pose proof (wcount_insert weight (workers s) i w) as Hins.
      pose proof (wcount_insert (is_hung (fsys cfg)) (workers s) i w) as Hinh.
      unfold step, worker, worker_return, wg_done, wg_add, Res_bind.
      rewrite Hx, Hl, Hc. destruct w as [id pc]. simpl in *.
      destruct pc as [|path|[e|]|e|e| |]; simpl in *; try discriminate.
      * replace (wg (shared s) + -1 <? 0) with false
          by (symmetry; apply Z.ltb_ge; lia).
        eexists. split; [reflexivity|]. simpl.
        specialize (Hins (mkWorker id WExited) Hl). simpl in Hins.
        specialize (Hinh (mkWorker id WExited) Hl). simpl in Hinh.
        rewrite Hm. unfold main_weight. repeat split; auto; lia.
      * destruct (returns (fsys cfg) path) eqn:Hret; [|lia].
        destruct (processFile_returns _ _ Hret) as (r & out & ->).
        eexists. split; [reflexivity|]. simpl.
        specialize (Hins (mkWorker id (WResult r)) Hl). simpl in Hins.
        specialize (Hinh (mkWorker id (WResult r)) Hl). simpl in Hinh.
        rewrite Hm. unfold main_weight. repeat split; auto; lia.
      * eexists. split; [reflexivity|]. simpl.
        specialize (Hins (mkWorker id (WLock e)) Hl). simpl in Hins.
        specialize (Hinh (mkWorker id (WLock e)) Hl). simpl in Hinh.
        rewrite Hm. unfold main_weight. repeat split; auto; lia.
      * eexists. split; [reflexivity|]. simpl.
        specialize (Hins (mkWorker id WSelect) Hl). simpl in Hins.
        specialize (Hinh (mkWorker id WSelect) Hl). simpl in Hinh.
        rewrite Hm. unfold main_weight. repeat split; auto; lia.
      * destruct (errMu (shared s)); [discriminate|].
        eexists. split; [reflexivity|]. simpl.
        specialize (Hins (mkWorker id (WAppend e)) Hl). simpl in Hins.
        specialize (Hinh (mkWorker id (WAppend e)) Hl). simpl in Hinh.
        rewrite Hm. unfold main_weight. repeat split; auto; lia.
      * eexists. split; [reflexivity|]. simpl.
        specialize (Hins (mkWorker id WUnlock) Hl). simpl in Hins.
        specialize (Hinh (mkWorker id WUnlock) Hl). simpl in Hinh.
        rewrite Hm. unfold main_weight. repeat split; auto; lia.
      * destruct (errMu (shared s)); [|simpl in Hmu; lia].
        eexists. split; [reflexivity|]. simpl.
        specialize (Hins (mkWorker id WSelect) Hl). simpl in Hins.
        specialize (Hinh (mkWorker id WSelect) Hl). simpl in Hinh.
        rewrite Hm. unfold main_weight. repeat split; auto; lia.
    + destruct (find_runnable_None _ _ _ Hf) as [Hhold Hlive].
      rewrite Hhold in Hmu. destruct (errMu (shared s)); [discriminate|].
      rewrite (Hlive eq_refl) in Hwg.
      unfold step, main, wg_wait, Res_bind. rewrite Hx, Hm, Hwg. simpl.
      eexists. split; [reflexivity|]. simpl. repeat split; auto; lia.
Qed.

Lemma potential_zero cfg s : potential cfg s = O -> mainPc s = MDone.
Proof.
  unfold potential. destruct (mainPc s); simpl; try reflexivity; lia.
Qed.

Lemma shutdown_run cfg n :
  valid_config cfg ->
  forall s, reachable cfg s -> cancelled (shared s) = true ->
  inflight_return cfg s -> (potential cfg s <= n)%nat ->
  exists s', run cfg (shutdown cfg n s) s = Ready s' /\ mainPc s' = MDone /\
             jobs (shared s') = jobs (shared s).
Proof.
  intros Hv. induction n as [|n IH]; intros s Hr Hc Hh Hn.
  - exists s. simpl. repeat split. apply (potential_zero cfg). lia.
  - unfold shutdown in *. simpl. destruct (exited s) eqn:Hx.
    + exists s. simpl. repeat split. unfold exited in Hx.
      destruct (mainPc s); try discriminate; reflexivity.
    + destruct (shutdown_progress cfg s Hv Hr Hc Hx Hh)
        as (s1 & Hs & Hlt & Hc1 & Hj & Hh1).
      rewrite Hs.
      destruct (IH s1 (reachable_step cfg _ s s1 Hr Hs) Hc1 Hh1)
        as (s' & Hrun & Hm & Hj'); [lia|].
      exists s'. simpl. rewrite Hs. simpl. repeat split; auto. congruence.
Qed.

(** A worker inside a call of [processFile] that does not return stays
    there, whatever the other goroutines do and whether or not the context
    is cancelled, and [wg.Wait()] does not return. *)
Lemma hung_step cfg ev s s' i w path :
  inv_wiring s -> workers s !! i = Some w -> w_pc w = WJob path ->
  returns (fsys cfg) path = false -> post_wait (mainPc s) = false ->
  step cfg ev s = Ready s' ->
  workers s' !! i = Some w /\ post_wait (mainPc s') = false.
Proof.
  intros (Hwg & _) Hl Hpc Hret Hpw H.
  pose proof (wcount_lookup is_live _ _ _ Hl) as Hlive.
  pose proof (lookup_lt_Some _ _ _ Hl) as Hlt.
  destruct w as [id pc]. simpl in *. subst pc. simpl in Hlive.
  destruct ev as [| |b|b|b|j b].
  6: { destruct (decide (j = i)) as [->|Hne].
       - unfold step in H. rewrite Hl in H. simpl in H.
         unfold processFile, returns in *.
         destruct (exited s); [discriminate|].
         destruct (fsys cfg path); discriminate.
       - open_state s. step_cases H.
         all: rewrite list_lookup_insert_ne by assumption; split; assumption. }
  all: open_state s; step_cases H.
  all: rewrite ?lookup_app_l by assumption.
  all: try (split; [assumption | first [assumption | reflexivity]]).
  all: bool_hyps; try discriminate; lia.
Qed.

Lemma hung_forever cfg evs :
  forall s s' i w path,
    reachable cfg s -> workers s !! i = Some w -> w_pc w = WJob path ->
    returns (fsys cfg) path = false -> post_wait (mainPc s) = false ->
    run cfg evs s = Ready s' ->
    workers s' !! i = Some w /\ post_wait (mainPc s') = false.
Proof.
  induction evs as [|ev evs IH]; intros s s' i w path Hr Hl Hpc Hret Hpw H; simpl in H.
  - injection H as <-. split; assumption.
  - destruct (step cfg ev s) as [s1| |] eqn:Hs; try discriminate. simpl in H.
    destruct (hung_step cfg ev s s1 i w path (wiring_reachable cfg s Hr)
                Hl Hpc Hret Hpw Hs) as [Hl1 Hpw1].
    exact (IH s1 s' i w path (reachable_step cfg ev s s1 Hr Hs) Hl1 Hpc Hret Hpw1 H).
Qed.

(** C4 (as amended). Once the context is cancelled, each of the four
    blocking operations that race against the cancellation has its
    [ctx.Done()] case enabled and returns through it: the worker at its
    receive, the walker at its send, the reporter and the autoscaler at their
    tick waits; a worker's deferred [wg.Done()] does not panic.  If no worker
    is inside a call of [processFile] that does not return, then from every
    state a cancelled run can reach, whatever happened before and whatever
    the queue still holds, the shutdown schedule lets every worker return,
    [wg.Wait()] return and [main] exit, without taking a single job from the
    queue.  A worker inside a call of [processFile] that does not return
    does not observe the cancellation: while it is there, no schedule lets
    [wg.Wait()] return. *)
Theorem shutdown_no_deadlock cfg s :
  valid_config cfg -> reachable cfg s ->
  cancelled (shared s) = true -> exited s = false ->
  (forall i w,
     workers s !! i = Some w -> w_pc w = WSelect ->
     exists s', step cfg (EvWorker i CaseDone) s = Ready s' /\
                workers s' !! i = Some (mkWorker (w_id w) WExited) /\
                wg (shared s') = wg (shared s) - 1 /\
                jobs (shared s') = jobs (shared s)) /\
  (forall e rest,
     producer s = PWalking (e :: rest) -> enqueued e = true ->
     step cfg (EvProducer CaseDone) s
       = Ready (set_producer (PReturn (Some ErrCanceled)) s)) /\
  (reporter s = RSelect ->
   exists s', step cfg (EvReporter CaseDone) s = Ready s' /\ reporter s' = RExited /\
              jobs (shared s') = jobs (shared s)) /\
  (forall wid act,
     scaler s = SSelect wid act ->
     step cfg (EvScaler CaseDone) s = Ready (set_scaler SExited s)) /\
  (inflight_return cfg s ->
   exists s',
     run cfg (shutdown cfg (potential cfg s) s) s = Ready s' /\
     mainPc s' = MDone /\
     jobs (shared s') = jobs (shared s)) /\
  (forall i w path evs s',
     workers s !! i = Some w -> w_pc w = WJob path ->
     returns (fsys cfg) path = false -> post_wait (mainPc s) = false ->
     run cfg evs s = Ready s' ->
     workers s' !! i = Some w /\ post_wait (mainPc s') = false /\ mainPc s' <> MDone).
Proof.
  intros Hv Hr Hc Hx.
  destruct (wiring_reachable cfg s Hr) as (Hwg & _).
  repeat match goal with |- _ /\ _ => split end.
  - intros i w Hl Hpc.
    pose proof (wcount_lookup is_live _ _ _ Hl) as Hlive. rewrite Hpc in Hlive.
    pose proof (lookup_lt_Some _ _ _ Hl) as Hlt. simpl in Hlive.
    unfold step, worker, worker_return, wg_done, wg_add, Res_bind.
    rewrite Hx, Hl, Hpc, Hc. simpl.
    replace (wg (shared s) + -1 <? 0) with false by (symmetry; apply Z.ltb_ge; lia).
    eexists. split; [reflexivity|]. simpl. repeat split.
    apply list_lookup_insert_eq. exact Hlt.
  - intros e rest Hp He. unfold enqueued in He.
    destruct (we_err e) eqn:E1; [discriminate|].
    destruct (we_isDir e) eqn:E2; [discriminate|].
    unfold step, walker. rewrite Hx, Hp, E1, E2, Hc. simpl.
    rewrite set_shared_same. reflexivity.
  - intros Hp. unfold step, metricsReporter. rewrite Hx, Hp, Hc. simpl.
    eexists. repeat split.
  - intros wid act Hp. unfold step, workerAutoscaler. rewrite Hx, Hp, Hc. simpl.
    rewrite set_shared_same, app_nil_r. destruct s; reflexivity.
  - intros Hh. apply shutdown_run; auto.
  - intros i w path evs s' Hl Hpc Hret Hpw Hrun.
    destruct (hung_forever cfg evs s s' i w path Hr Hl Hpc Hret Hpw Hrun) as [H1 H2].
    split; [exact H1|]. split; [exact H2|].
    intros Hm. rewrite Hm in H2. discriminate H2.
Qed.

Lemma shutdown_no_deadlock_witness :
  chan_len (jobs (shared st_stop)) = 30 /\
  exists s',
    run cfg_stop (shutdown cfg_stop (potential cfg_stop st_stop) st_stop) st_stop
      = Ready s' /\
    mainPc s' = MDone /\
    jobs (shared s') = jobs (shared st_stop).
Proof.
  split; [reflexivity|].
  destruct (shutdown_no_deadlock cfg_stop st_stop) as (_ & _ & _ & _ & H & _);
    [solve_valid | solve_reachable sched_stop | reflexivity | reflexivity |].
  apply H. reflexivity.
Defined.

(** Counterexample to C4 as stated: one worker has received the path of a
    FIFO nobody writes to and is inside [os.Open] when the interrupt
    arrives.  The context is cancelled, and no schedule brings [main] past
    [wg.Wait()]. *)
Lemma shutdown_no_deadlock_counterexample :
  ~ (forall cfg s,
       valid_config cfg -> reachable cfg s ->
       cancelled (shared s) = true -> exited s = false ->
       exists evs s', run cfg evs s = Ready s' /\ mainPc s' = MDone).
Proof.
  intros H.
  destruct (H cfg_hang st_hang) as (evs & s' & Hrun & Hm);
    [solve_valid | solve_reachable sched_hang | reflexivity | reflexivity |].
  destruct (hung_forever cfg_hang evs st_hang s' 0%nat (mkWorker 0 (WJob "fifo")) "fifo")
    as [_ Hpw];
    [solve_reachable sched_hang | reflexivity | reflexivity | reflexivity
    | reflexivity | exact Hrun |].
  rewrite Hm in Hpw. discriminate Hpw.
Qed.

(** ** Completion without interrupt *)

Lemma work_left_zero cfg s : work_left cfg s = O -> mainPc s = MDone.
Proof. unfold work_left. intros H. apply (potential_zero cfg). lia. Qed.

(** On a file the walker sent [processFile] returns, if it does on every
    file of the walk. *)
Lemma job_returns cfg s i w path :
  all_return cfg -> reachable cfg s ->
  workers s !! i = Some w -> w_pc w = WJob path ->
  exists r out, processFile (fsys cfg) path = Ready (r, out).
Proof.
  intros Hall Hr Hl Hpc.
  destruct (paths_reachable cfg s Hr) as (_ & _ & Hw & _).
  pose proof (Forall_lookup_1 _ _ _ _ Hw Hl) as Hin. simpl in Hin.
  rewrite Hpc in Hin. simpl in Hin.
  apply processFile_returns.
  unfold all_return in Hall. rewrite Forall_forall in Hall.
  apply Hall, list_elem_of_In. exact Hin.
Qed.

(** Without interrupt, over a walk on whose files [processFile] returns,
    the scheduled event is enabled and reduces the work that is left. *)
Lemma completion_progress cfg s :
  valid_config cfg -> all_return cfg ->
  reachable cfg s -> uncancelled s -> exited s = false ->
  exists s',
    step cfg (next_normal s) s = Ready s' /\
    (work_left cfg s' < work_left cfg s)%nat /\
    uncancelled s'.
Proof.
  intros Hv Hall Hr Hu Hx. pose proof Hv as [[Hv0 Hv1] _].
  destruct (wiring_reachable cfg s Hr) as (Hwg & Hmu & Hcl & Hcap & Hlen & _ & _ & _ & Hp).
  destruct (drain_reachable cfg s Hv Hr) as (Hsp & _).
  unfold uncancelled, next_normal, work_left, potential, walker_ready, chan_len in *.
  pose proof Hx as Hx'. unfold exited in Hx'.
  destruct (mainPc s) eqn:Hm; try discriminate Hx'.
  all: try solve [eexists; unfold step, main; rewrite Hx, Hm; simpl;
                  repeat split; simpl; auto; lia].
  - (* the spawn loop *)
    destruct Hsp as [Hl Hle].
    unfold step, main, spawn, wg_add, Res_bind. rewrite Hx, Hm.
    destruct (i <? initWorkers cfg) eqn:Hi; bool_hyps.
    + replace (wg (shared s) + 1 <? 0) with false by (symmetry; apply Z.ltb_ge; lia).
      eexists. split; [reflexivity|]. simpl. rewrite wcount_app. simpl.
      rewrite add1_small by lia. rewrite ?Hm; simpl; split; [lia | assumption].
    + eexists. split; [reflexivity|]. simpl. rewrite ?Hm; simpl; split; [lia | assumption].
  - (* the walker is started *)
    simpl in Hp. destruct (producer s) eqn:Hpr; try discriminate Hp.
    eexists. unfold step, main. rewrite Hx, Hm. split; [reflexivity|].
    simpl. rewrite ?Hm; simpl; split; [lia | assumption].
  - (* the wait *)
    simpl in Hp.
    destruct (producer s) as [|[|e rest]|err|] eqn:Hpr; try discriminate Hp.
    + (* the walk is over *)
      eexists. unfold step, walker. rewrite Hx, Hpr. simpl.
      split; [reflexivity|]. simpl. rewrite ?Hm; simpl; split; [lia | assumption].
    + (* an entry *)
      unfold enqueued.
      destruct (we_err e) eqn:E1; [|destruct (we_isDir e) eqn:E2]; simpl.
      * eexists. unfold step, walker. rewrite Hx, Hpr, E1. simpl.
        split; [reflexivity|]. simpl. unfold enqueued. rewrite E1.
        rewrite ?Hm; simpl; split; [lia | assumption].
      * eexists. unfold step, walker. rewrite Hx, Hpr, E1, E2. simpl.
        split; [reflexivity|]. simpl. unfold enqueued. rewrite E1, E2.
        rewrite ?Hm; simpl; split; [lia | assumption].
      * destruct (Z.of_nat (length (buf (jobs (shared s)))) <? 100) eqn:Hroom.
        -- eexists. unfold step, walker, chan_send, chan_len.
           rewrite Hx, Hpr, E1, E2, Hcl, Hcap, Hroom. simpl.
           split; [reflexivity|]. simpl. unfold enqueued. rewrite E1, E2.
           rewrite length_app. simpl. rewrite ?Hm; simpl; split; [lia | assumption].
        -- (* the queue is full: a worker receives *)
           bool_hyps.
           destruct (buf (jobs (shared s))) as [|path q] eqn:Hbuf; [simpl in *; lia|].
           destruct (find_ready (receptive (shared s)) (workers s) 0) as [j|] eqn:Hf.
           ++ destruct (find_ready_Some _ _ _ _ Hf) as (w & Hlk & Hrun & _).
              rewrite Nat.sub_0_r in Hlk.
              pose proof (wcount_lookup is_holder _ _ _ Hlk) as Hhold.
              pose proof (wcount_insert weight (workers s) j w) as Hins.
              unfold step, worker, chan_recv, Res_bind. rewrite Hx, Hlk.
              unfold receptive in Hrun. rewrite Hbuf in *.
              destruct w as [id pc]. simpl in *.
              destruct pc as [|p|[e0|]|e0|e0| |]; simpl in *; try discriminate.
              ** eexists. split; [reflexivity|]. simpl. rewrite Hpr.
                 specialize (Hins (mkWorker id (WJob path)) Hlk). simpl in *.
                 rewrite ?Hm; simpl; split; [lia | assumption].
              ** destruct (job_returns cfg s j _ p Hall Hr Hlk eq_refl) as (r & out & ->).
                 eexists. split; [reflexivity|]. simpl. rewrite Hpr, Hbuf.
                 specialize (Hins (mkWorker id (WResult r)) Hlk). simpl in *.
                 rewrite ?Hm; simpl; split; [lia | assumption].
              ** eexists. split; [reflexivity|]. simpl. rewrite Hpr, Hbuf.
                 specialize (Hins (mkWorker id (WLock e0)) Hlk). simpl in *.
                 rewrite ?Hm; simpl; split; [lia | assumption].
              ** eexists. split; [reflexivity|]. simpl. rewrite Hpr, Hbuf.
                 specialize (Hins (mkWorker id WSelect) Hlk). simpl in *.
                 rewrite ?Hm; simpl; split; [lia | assumption].
              ** destruct (errMu (shared s)); [discriminate|].
                 eexists. split; [reflexivity|]. simpl. rewrite Hpr, Hbuf.
                 specialize (Hins (mkWorker id (WAppend e0)) Hlk). simpl in *.
                 rewrite ?Hm; simpl; split; [lia | assumption].
              ** eexists. split; [reflexivity|]. simpl. rewrite Hpr, Hbuf.
                 specialize (Hins (mkWorker id WUnlock) Hlk). simpl in *.
                 rewrite ?Hm; simpl; split; [lia | assumption].
              ** destruct (errMu (shared s)); [|simpl in Hmu; lia].
                 eexists. split; [reflexivity|]. simpl. rewrite Hpr, Hbuf.
                 specialize (Hins (mkWorker id WSelect) Hlk). simpl in *.
                 rewrite ?Hm; simpl; split; [lia | assumption].
           ++ assert (Hh : wcount is_holder (workers s) = O).
              { apply (find_ready_None _ _ _ _ Hf). unfold receptive.
                intros []; simpl; try discriminate; reflexivity. }
              rewrite Hh in Hmu. destruct (errMu (shared s)) eqn:Hmu'; [discriminate|].
              assert (Hlive : wcount is_live (workers s) = O).
              { apply (find_ready_None _ _ _ _ Hf). unfold receptive.
                rewrite Hbuf, Hmu'. intros []; simpl; try discriminate; reflexivity. }
              rewrite Hlive in Hwg.
              unfold step, main, wg_wait, Res_bind. rewrite Hx, Hm, Hwg. simpl.
              eexists. split; [reflexivity|]. simpl. rewrite Hpr, Hbuf.
              rewrite ?Hm; simpl; split; [lia | assumption].
    + (* the close *)
      unfold step, walker, chan_close. rewrite Hx, Hpr. simpl.
      destruct err as [[|msg]|]; simpl; rewrite Hcl; simpl; eexists;
        (split; [reflexivity|]); simpl; rewrite ?Hm; simpl; (split; [lia | assumption]).
    + (* the walker is gone *)
      destruct (find_ready (receptive (shared s)) (workers s) 0) as [j|] eqn:Hf.
      * destruct (find_ready_Some _ _ _ _ Hf) as (w & Hlk & Hrun & _).
        rewrite Nat.sub_0_r in Hlk.
        pose proof (wcount_lookup is_holder _ _ _ Hlk) as Hhold.
        pose proof (wcount_lookup is_live _ _ _ Hlk) as Hlive.
        pose proof (wcount_insert weight (workers s) j w) as Hins.
        unfold step, worker, worker_return, wg_done, wg_add, chan_recv, Res_bind.
        rewrite Hx, Hlk. unfold receptive in Hrun.
        destruct w as [id pc]. simpl in *.
        destruct pc as [|p|[e0|]|e0|e0| |]; simpl in *; try discriminate.
        -- destruct (buf (jobs (shared s))) as [|path q] eqn:Hbuf.
           ++ rewrite Hcl. simpl.
              replace (wg (shared s) + -1 <? 0) with false
                by (symmetry; apply Z.ltb_ge; lia).
              eexists. split; [reflexivity|]. simpl. rewrite Hpr, Hbuf.
              specialize (Hins (mkWorker id WExited) Hlk). simpl in *.
              rewrite ?Hm; simpl; split; [lia | assumption].
           ++ eexists. split; [reflexivity|]. simpl. rewrite Hpr.
              specialize (Hins (mkWorker id (WJob path)) Hlk). simpl in *.
              rewrite ?Hm; simpl; split; [lia | assumption].
        -- destruct (job_returns cfg s j _ p Hall Hr Hlk eq_refl) as (r & out & ->).
           eexists. split; [reflexivity|]. simpl. rewrite Hpr.
           specialize (Hins (mkWorker id (WResult r)) Hlk). simpl in *.
           rewrite ?Hm; simpl; split; [lia | assumption].
        -- eexists. split; [reflexivity|]. simpl. rewrite Hpr.
           specialize (Hins (mkWorker id (WLock e0)) Hlk). simpl in *.
           rewrite ?Hm; simpl; split; [lia | assumption].
        -- eexists. split; [reflexivity|]. simpl. rewrite Hpr.
           specialize (Hins (mkWorker id WSelect) Hlk). simpl in *.
           rewrite ?Hm; simpl; split; [lia | assumption].
        -- destruct (errMu (shared s)); [discriminate|].
           eexists. split; [reflexivity|]. simpl. rewrite Hpr.
           specialize (Hins (mkWorker id (WAppend e0)) Hlk). simpl in *.
           rewrite ?Hm; simpl; split; [lia | assumption].
        -- eexists. split; [reflexivity|]. simpl. rewrite Hpr.
           specialize (Hins (mkWorker id WUnlock) Hlk). simpl in *.
           rewrite ?Hm; simpl; split; [lia | assumption].
        -- destruct (errMu (shared s)); [|simpl in Hmu; lia].
           eexists. split; [reflexivity|]. simpl. rewrite Hpr.
           specialize (Hins (mkWorker id WSelect) Hlk). simpl in *.
           rewrite ?Hm; simpl; split; [lia | assumption].
      * assert (Hh : wcount is_holder (workers s) = O).
        { apply (find_ready_None _ _ _ _ Hf). unfold receptive.
          intros []; simpl; try discriminate; reflexivity. }
        rewrite Hh in Hmu. destruct (errMu (shared s)) eqn:Hmu'; [discriminate|].
        assert (Hlive : wcount is_live (workers s) = O).
        { apply (find_ready_None _ _ _ _ Hf). unfold receptive.
          rewrite Hcl, Hmu'. intros []; simpl; try discriminate; try reflexivity.
          destruct (buf (jobs (shared s))); discriminate. }
        rewrite Hlive in Hwg.
        unfold step, main, wg_wait, Res_bind. rewrite Hx, Hm, Hwg. simpl.
        eexists. split; [reflexivity|]. simpl. rewrite Hpr.
        rewrite ?Hm; simpl; split; [lia | assumption].
Qed.

Lemma completion_run cfg n :
  valid_config cfg -> all_return cfg ->
  forall s, reachable cfg s -> uncancelled s -> (work_left cfg s <= n)%nat ->
  exists s', run cfg (drive next_normal cfg n s) s = Ready s' /\
             mainPc s' = MDone /\ uncancelled s'.
Proof.
  intros Hv Hall. induction n as [|n IH]; intros s Hr Hu Hn.
  - exists s. simpl. repeat split; auto. apply (work_left_zero cfg). lia.
  - simpl. destruct (exited s) eqn:Hx.
    + exists s. simpl. repeat split; auto. unfold exited in Hx.
      destruct (mainPc s); try discriminate; reflexivity.
    + destruct (completion_progress cfg s Hv Hall Hr Hu Hx) as (s1 & Hs & Hlt & Hu1).
      rewrite Hs.
      destruct (IH s1 (reachable_step cfg _ s s1 Hr Hs) Hu1) as (s' & Hrun & Hm & Hu');
        [lia|].
      exists s'. simpl. rewrite Hs. simpl. repeat split; auto.
Qed.

(** Every configuration on whose files [processFile] returns has a run that
    completes without interrupt; with at least one initial worker it ends
    with every enumerated file counted. *)
Lemma complete_run_exists cfg :
  valid_config cfg -> all_return cfg ->
  exists evs s,
    run cfg evs init = Ready s /\ mainPc s = MDone /\ uncancelled s /\
    (1 <= initWorkers cfg ->
     processed (metrics (shared s)) = Z.of_nat (validFiles cfg) /\
     failed (metrics (shared s)) = Z.of_nat (unreadableFiles cfg)).
Proof.
  intros Hv Hall.
  destruct (completion_run cfg (work_left cfg init) Hv Hall init (reachable_init cfg)
              eq_refl (Nat.le_refl _)) as (s & Hrun & Hm & Hu).
  exists (drive next_normal cfg (work_left cfg init) init), s.
  split; [exact Hrun|]. split; [exact Hm|]. split; [exact Hu|].
  intros Hi. assert (Hr : reachable cfg s) by (eexists; exact Hrun).
  destruct (completed_run cfg s Hv Hi Hr Hu Hm) as (H1 & H2 & _). split; assumption.
Qed.

(** * Further properties of the program *)

(** ** The shared objects *)

(** X1. The queue is bounded: in every reachable state the [jobs] channel
    has capacity 100 and holds at most 100 paths. *)
Theorem queue_capacity cfg s :
  reachable cfg s ->
  cap (jobs (shared s)) = 100 /\ (length (buf (jobs (shared s))) <= 100)%nat.
Proof.
  intros Hr. destruct (wiring_reachable cfg s Hr) as (_ & _ & _ & Hcap & Hlen & _).
  unfold chan_len in Hlen. split; [exact Hcap | lia].
Qed.

Lemma queue_capacity_witness :
  cap (jobs (shared st_full)) = 100 /\ (length (buf (jobs (shared st_full))) <= 100)%nat.
Proof. apply (queue_capacity cfg_full). solve_reachable sched_full. Defined.




Lemma wcount_unique f ws i j wi wj :
  (wcount f ws <= 1)%nat ->
  ws !! i = Some wi -> ws !! j = Some wj ->
  f (w_pc wi) = 1%nat -> f (w_pc wj) = 1%nat -> i = j.
Proof.
  revert i j. induction ws as [|x ws IH]; intros [|i] [|j] Hc Hi Hj Hfi Hfj;
    simpl in *; try discriminate; try reflexivity.
  - injection Hi as ->. pose proof (wcount_lookup f ws j wj Hj). lia.
  - injection Hj as ->. pose proof (wcount_lookup f ws i wi Hi). lia.
  - f_equal. apply IH; auto. lia.
Qed.

(** X3. Mutual exclusion on [errMu]: in every reachable state at most one
    worker is between [errMu.Lock()] and [errMu.Unlock()], and the mutex is
    held exactly when there is one. *)
Theorem mutex_exclusion cfg s :
  reachable cfg s ->
  (forall i j wi wj,
     workers s !! i = Some wi -> workers s !! j = Some wj ->
     is_holder (w_pc wi) = 1%nat -> is_holder (w_pc wj) = 1%nat -> i = j) /\
  (errMu (shared s) = true <-> wcount is_holder (workers s) = 1%nat) /\
  (errMu (shared s) = false <-> wcount is_holder (workers s) = O).
Proof.
  intros Hr. destruct (wiring_reachable cfg s Hr) as (_ & Hmu & _).
  split; [|destruct (errMu (shared s)); rewrite <- Hmu; split; split;
            intros; try discriminate; reflexivity].
  intros i j wi wj. apply wcount_unique. rewrite <- Hmu.
  destruct (errMu (shared s)); lia.
Qed.

Lemma mutex_exclusion_witness :
  errMu (shared st_mixed) = false <-> wcount is_holder (workers st_mixed) = O.
Proof.
  destruct (mutex_exclusion cfg_mixed st_mixed) as (_ & _ & H);
    [solve_reachable sched_mixed | exact H].
Defined.

(** X4. Only the signal goroutine and the deferred call of [main] cancel
    the context: in every reachable state [ctx.Done()] is closed exactly when
    the signal goroutine has run its [cancel()] (a signal received and
    announced is not yet a cancelled context) or [main] has run its deferred
    [cancel()]; and a cancelled context stays cancelled. *)
Theorem cancel_sources cfg s :
  reachable cfg s ->
  (cancelled (shared s) = true <->
   sigPc s = SigDone \/ main_cancelled (mainPc s) = true) /\
  (forall evs s', cancelled (shared s) = true -> run cfg evs s = Ready s' ->
                  cancelled (shared s') = true).
Proof.
  intros Hr. destruct (wiring_reachable cfg s Hr) as (_ & _ & _ & _ & _ & Hctx & _).
  split.
  - rewrite Hctx. destruct (sigPc s), (main_cancelled (mainPc s)); split;
      intros; try reflexivity; try (left; reflexivity); try (right; reflexivity);
      try discriminate; destruct H; discriminate.
  - intros evs. revert s Hr Hctx. induction evs as [|ev evs IH]; intros s Hr _ s' Hc H.
    + simpl in H. injection H as <-. exact Hc.
    + simpl in H. destruct (step cfg ev s) as [s1| |] eqn:E; try discriminate.
      simpl in H.
      assert (Hr1 : reachable cfg s1) by (eapply reachable_step; eauto).
      destruct (wiring_reachable cfg s1 Hr1) as (_ & _ & _ & _ & _ & Hctx1 & _).
      apply (IH s1 Hr1 Hctx1 s'); [|exact H].
      clear - Hc E. open_state s. destruct ev; step_cases E; auto.
Qed.

Lemma cancel_sources_witness :
  cancelled (shared st_window) = true <->
  sigPc st_window = SigDone \/ main_cancelled (mainPc st_window) = true.
Proof.
  destruct (cancel_sources cfg_mixed st_window) as (H & _);
    [solve_reachable sched_window | exact H].
Defined.

(** ** Delivery of jobs *)

Lemma cancelled_step cfg ev s s' :
  step cfg ev s = Ready s' -> cancelled (shared s') = false ->
  cancelled (shared s) = false.
Proof.
  intros H Hu. open_state s. simpl in *.
  destruct ev; step_cases H; auto; discriminate.
Qed.

Lemma fifo_step cfg ev s s' :
  inv_wiring s -> step cfg ev s = Ready s' ->
  exists dropped,
    received_by s ev ++ buf (jobs (shared s')) ++ todo cfg (producer s') ++ dropped
      = buf (jobs (shared s)) ++ todo cfg (producer s) /\
    (cancelled (shared s') = false -> dropped = []).
Proof.
  intros (_ & _ & _ & _ & _ & Hctx & _ & _ & Hp) H.
  unfold received_by, is_dequeue.
  open_state s. simpl in *. destruct ev; step_cases H.
  all: try solve [exists []; rewrite ?app_nil_r; split; [reflexivity | reflexivity]].
  all: try solve [destruct b; exists []; rewrite ?app_nil_r; simpl; split; reflexivity].
  all: unfold enqueued in *;
    repeat match goal with
    | H : we_err _ = _ |- _ => rewrite H in *
    | H : we_isDir _ = _ |- _ => rewrite H in *
    end; simpl in *.
  all: try solve [exists []; rewrite ?app_nil_r, <- ?app_assoc; simpl; split; reflexivity].
  all: try solve [destruct producer0; try discriminate; exists []; rewrite ?app_nil_r;
                  split; reflexivity].
  all: try solve [eexists; split; [reflexivity|]; intros Hu; discriminate Hu].
Qed.

Lemma cancelled_run cfg evs :
  forall s s', run cfg evs s = Ready s' -> cancelled (shared s') = false ->
               cancelled (shared s) = false.
Proof.
  induction evs as [|e evs IH]; intros s s' H Hu; simpl in H.
  - injection H as <-. exact Hu.
  - destruct (step cfg e s) as [s1| |] eqn:E; simpl in H; try discriminate.
    eapply cancelled_step; eauto.
Qed.

Lemma fifo_run cfg evs :
  forall s0 s, reachable cfg s0 -> run cfg evs s0 = Ready s ->
  exists dropped,
    received cfg evs s0 ++ buf (jobs (shared s)) ++ todo cfg (producer s) ++ dropped
      = buf (jobs (shared s0)) ++ todo cfg (producer s0) /\
    (cancelled (shared s) = false -> dropped = []).
Proof.
  induction evs as [|ev evs IH]; intros s0 s Hr H; simpl in *.
  - injection H as <-. exists []. rewrite app_nil_r. auto.
  - destruct (step cfg ev s0) as [s1| |] eqn:E; simpl in H; try discriminate.
    destruct (fifo_step cfg ev s0 s1 (wiring_reachable cfg s0 Hr) E) as (d1 & H1 & Hd1).
    assert (Hr1 : reachable cfg s1) by (eapply reachable_step; eauto).
    destruct (IH s1 s Hr1 H) as (d2 & H2 & Hd2).
    exists (d2 ++ d1). split.
    + rewrite <- H1. rewrite (app_assoc (buf (jobs (shared s1)))). rewrite <- H2.
      rewrite <- !app_assoc. reflexivity.
    + intros Hu. rewrite (Hd2 Hu). simpl. apply Hd1.
      exact (cancelled_run cfg evs s1 s H Hu).
Qed.

(** X6. Jobs are delivered in walk order, each once: along every schedule
    the paths the workers have received so far, followed by the contents of
    the queue and by the paths the walker has still to send, are an initial
    part of the list of files of the walk, and the whole list as long as the
    context is not cancelled. *)
Theorem fifo_delivery cfg evs s :
  run cfg evs init = Ready s ->
  exists dropped,
    received cfg evs init ++ buf (jobs (shared s)) ++ todo cfg (producer s) ++ dropped
      = files (dir cfg) /\
    (cancelled (shared s) = false -> dropped = []).
Proof.
  intros H. exact (fifo_run cfg evs init s (reachable_init cfg) H).
Qed.

Lemma fifo_delivery_witness :
  received cfg_mixed sched_drain init ++ buf (jobs (shared st_drain))
    ++ todo cfg_mixed (producer st_drain)
  = ["a"; "bad"; "torn"; "b"]%string.
Proof.
  destruct (fifo_delivery cfg_mixed sched_drain st_drain) as (dropped & H & Hd);
    [vm_compute; reflexivity|].
  rewrite (Hd eq_refl) in H. vm_compute in H. vm_compute. exact H.
Defined.

(** ** The metrics reporter *)

Ltac rewrite_tests :=
  repeat match goal with
  | Hq : ?x = _ |- context [?x] => rewrite Hq
  end.

Lemma other_lines_app out1 out2 :
  other_lines (out1 ++ out2) = other_lines out1 ++ other_lines out2.
Proof. apply List.filter_app. Qed.

Lemma other_errorLines errs : other_lines (errorLines errs) = errorLines errs.
Proof.
  unfold errorLines. destruct (_ >? 0); [|reflexivity].
  simpl. f_equal. induction errs as [|e errs IH]; simpl; [reflexivity|].
  f_equal. exact IH.
Qed.

Lemma scalerTick_stdout q wid act sh pc sh' sp :
  scalerTick q wid act sh = Ready (pc, sh', sp) ->
  exists printed,
    sh' = mkShared (cancelled sh') (jobs sh') (wg sh') (metrics sh') (errMu sh')
                   (errors sh') (stdout sh ++ printed) /\
    other_lines printed = printed /\
    forall out,
      scalerTick q wid act
        (mkShared (cancelled sh) (jobs sh) (wg sh) (metrics sh) (errMu sh) (errors sh) out)
      = Ready (pc,
               mkShared (cancelled sh') (jobs sh') (wg sh') (metrics sh') (errMu sh')
                        (errors sh') (out ++ printed),
               sp).
Proof.
  unfold scalerTick, scaleUp, spawn, wg_add, Res_bind. destruct sh. simpl.
  intros H. break_match H; injection H as <- <- <-; unfold print, set_wg; simpl.
  all: rewrite <- ?app_assoc; simpl.
  all: first
    [ exists []; rewrite app_nil_r; split; [reflexivity|]
    | eexists; split; [reflexivity|] ].
  all: split; [reflexivity|].
  all: intros out; rewrite_tests; simpl; rewrite_tests; simpl;
    rewrite <- ?app_assoc, ?app_nil_r; reflexivity.
Qed.

(** A step of another goroutine prints no line of the reporter and does the
    same whatever the reporter has done. *)
Lemma step_quiet cfg ev s s' :
  step cfg ev s = Ready s' ->
  is_reporter_event ev = false ->
  exists printed,
    stdout (shared s') = stdout (shared s) ++ printed /\
    other_lines printed = printed /\
    forall out r, exists r',
      step cfg ev (set_reporter r (set_stdout out s))
      = Ready (set_reporter r' (set_stdout (out ++ printed) s')).
Proof.
  intros H Hev. destruct ev as [| |b0|b| |]; try discriminate Hev; clear Hev.
  3: { destruct s as [[c j w mt mu er so] m sg r sc p ws].
       unfold step, set_stdout, set_reporter, exited in *.
       simpl in *.
       destruct (match m with MDone => true | _ => false end); [discriminate|].
       unfold workerAutoscaler in *.
       destruct sc as [|wid act|q wid act|]; try discriminate.
       - destruct b; [destruct c; simpl in *; try discriminate|];
           injection H as <-; exists []; simpl;
           (split; [symmetry; apply app_nil_r|]); (split; [reflexivity|]);
           intros out r0; exists r0; rewrite ?app_nil_r; reflexivity.
       - destruct (scalerTick q wid act _) as [[[pc sh'] sp]| |] eqn:Ht;
           try discriminate.
         simpl in H. injection H as <-.
         destruct (scalerTick_stdout _ _ _ _ _ _ _ Ht) as (printed & Hsh & Hq & Hout).
         exists printed. simpl. split; [rewrite Hsh; reflexivity|].
         split; [exact Hq|].
         intros out r0. exists r0. rewrite Hout. reflexivity. }
  all: open_state s; step_cases H.
  all: first
    [ exists []; split; [symmetry; apply app_nil_r|]
    | eexists; split; [reflexivity|] ].
  all: (split; [first [reflexivity | apply other_errorLines]|]).
  all: intros out r; eexists;
    unfold step, signal_step, main, metricsReporter, walker, worker,
    worker_return, spawn, wg_wait, wg_done, wg_add, chan_send, chan_recv, chan_close,
    chan_len, processFile, Res_bind, set_stdout, exited; simpl;
    rewrite_tests; simpl; rewrite_tests; simpl;
    unfold print, set_shared, set_mainPc, set_sigPc, set_reporter, set_scaler,
      set_producer, set_workers, set_cancelled, set_jobs, set_wg, set_metrics,
      set_errMu, set_errors; simpl;
    rewrite <- ?app_assoc, ?app_nil_r; reflexivity.
Qed.

(** A step of the reporter changes its own program counter and appends its
    own lines. *)
Lemma reporter_step cfg b s s' :
  step cfg (EvReporter b) s = Ready s' ->
  without_reporter s' = without_reporter s.
Proof.
  intros H. open_state s; step_cases H.
  all: unfold without_reporter, set_stdout, set_reporter, set_shared, print; simpl;
    rewrite ?other_lines_app; simpl; rewrite ?app_nil_r; reflexivity.
Qed.

Lemma other_events_run cfg evs s s0 s' :
  set_reporter RNotStarted s0 = without_reporter s ->
  run cfg evs s = Ready s' ->
  exists s0', run cfg (other_events evs) s0 = Ready s0' /\
              set_reporter RNotStarted s0' = without_reporter s'.
Proof.
  revert s s0. induction evs as [|ev evs IH]; intros s s0 HR H; simpl in H.
  - injection H as <-. exists s0. split; [reflexivity | exact HR].
  - destruct (step cfg ev s) as [s1| |] eqn:Hs; try discriminate. simpl in H.
    unfold other_events. simpl. fold (other_events evs).
    destruct (is_reporter_event ev) eqn:Hev; simpl.
    + destruct ev; try discriminate Hev.
      apply (IH s1 s0); [|exact H].
      rewrite HR. symmetry. exact (reporter_step _ _ _ _ Hs).
    + destruct (step_quiet _ _ _ _ Hs Hev) as (printed & Hp & Hq & Hout).
      destruct (Hout (other_lines (stdout (shared s))) (reporter s0)) as (r' & Hr').
      assert (Hs0 : s0 = set_reporter (reporter s0)
                           (set_stdout (other_lines (stdout (shared s))) s)).
      { destruct s0 as [sh0 ? ? ? ? ? ?], s as [sh ? ? ? ? ? ?].
        unfold without_reporter, set_reporter, set_stdout, set_shared in *.
        simpl in *. injection HR as -> -> -> -> -> ->. reflexivity. }
      rewrite <- Hs0 in Hr'. rewrite Hr'. simpl.
      apply (IH s1); [|exact H].
      unfold without_reporter. rewrite Hp, other_lines_app, Hq.
      destruct s1; reflexivity.
Qed.

(** X8. [metricsReporter] only observes: the schedule without the steps of
    the reporter runs as well, and reaches the same state of every other
    goroutine and of all shared data, with the same output but for the
    reporter's lines. *)
Theorem reporter_only_observes cfg evs s :
  run cfg evs init = Ready s ->
  exists s0,
    run cfg (other_events evs) init = Ready s0 /\
    set_reporter RNotStarted s0 = without_reporter s.
Proof.
  intros H. exact (other_events_run cfg evs init init s eq_refl H).
Qed.

Lemma reporter_only_observes_witness :
  exists s0,
    run cfg_mixed (other_events sched_mixed) init = Ready s0 /\
    set_reporter RNotStarted s0 = without_reporter st_mixed.
Proof.
  apply (reporter_only_observes cfg_mixed sched_mixed st_mixed).
  vm_compute. reflexivity.
Defined.

(** ** Progress without an interrupt *)

(** X9. Without an interrupt, over a walk on whose files [processFile]
    returns, the program can always finish: from every state of a run
    without interrupt some schedule leads on to the return of [main], still
    without an interrupt; with at least one initial worker every enumerated
    file is counted by then. *)
Theorem completes_without_interrupt cfg s :
  valid_config cfg -> all_return cfg -> reachable cfg s -> uncancelled s ->
  exists evs s',
    run cfg evs s = Ready s' /\ mainPc s' = MDone /\ uncancelled s' /\
    (1 <= initWorkers cfg ->
     processed (metrics (shared s')) = Z.of_nat (validFiles cfg) /\
     failed (metrics (shared s')) = Z.of_nat (unreadableFiles cfg)).
Proof.
  intros Hv Hall Hr Hu.
  destruct (completion_run cfg (work_left cfg s) Hv Hall s Hr Hu (Nat.le_refl _))
    as (s' & Hrun & Hm & Hu').
  exists (drive next_normal cfg (work_left cfg s) s), s'.
  split; [exact Hrun|]. split; [exact Hm|]. split; [exact Hu'|].
  intros Hi.
  destruct (completed_run cfg s' Hv Hi (reachable_run cfg _ s s' Hr Hrun) Hu' Hm)
    as (H1 & H2 & _).
  split; assumption.
Qed.

Lemma completes_without_interrupt_witness :
  exists evs s',
    run cfg_mixed evs st_gone = Ready s' /\ mainPc s' = MDone /\ uncancelled s' /\
    (1 <= initWorkers cfg_mixed ->
     processed (metrics (shared s')) = Z.of_nat (validFiles cfg_mixed) /\
     failed (metrics (shared s')) = Z.of_nat (unreadableFiles cfg_mixed)).
Proof.
  apply (completes_without_interrupt cfg_mixed st_gone);
    [solve_valid
    | repeat constructor
    | solve_reachable (startup 2 ++ repeat (EvProducer CaseComm) 4)
    | reflexivity].
Defined.

(** ** The autoscaler *)

(** X10. A tick of the autoscaler to which neither rule applies (the
    sampled depth between the watermarks, or above 50 with the tracked count
    at [maxWorkers] or more, or below 10 with the tracked count at
    [minWorkers] or less) spawns nobody, prints nothing and leaves the
    tracked count and [workerID] as they are. *)
Theorem tick_idle cfg s b q wid act :
  exited s = false -> scaler s = STick q wid act ->
  (10 <= q <= 50 \/ (50 < q /\ maxWorkers <= act) \/ (q < 10 /\ act <= minWorkers)) ->
  step cfg (EvScaler b) s = Ready (set_scaler (SSelect wid act) s).
Proof.
  unfold maxWorkers, minWorkers. intros Hx Hs Hq.
  unfold step, workerAutoscaler, scalerTick, Res_bind, maxWorkers, minWorkers.
  rewrite Hx, Hs.
  assert (H1 : (q >? 50) && (act <? 20) = false).
  { rewrite Z.gtb_ltb. apply andb_false_iff.
    destruct (Z.ltb_spec 50 q); [|left; reflexivity].
    right. apply Z.ltb_ge. lia. }
  assert (H2 : (q <? 10) && (act >? 2) = false).
  { rewrite Z.gtb_ltb. apply andb_false_iff.
    destruct (Z.ltb_spec q 10); [|left; reflexivity].
    right. apply Z.ltb_ge. lia. }
  rewrite H1. simpl. rewrite H2. simpl.
  rewrite set_shared_same, app_nil_r. destruct s; reflexivity.
Qed.

Lemma tick_idle_witness :
  step cfg_mixed (EvScaler CaseComm) st_sampled
  = Ready (set_scaler (SSelect 2 2) st_sampled).
Proof.
  apply (tick_idle cfg_mixed st_sampled CaseComm 4 2 2);
    [reflexivity | reflexivity | right; right; unfold minWorkers; lia].
Defined.

Lemma scalerTick_lower q wid act sh wid' act' sh' sp :
  Int64.in_range act ->
  scalerTick q wid act sh = Ready (SSelect wid' act', sh', sp) ->
  Z.min act minWorkers <= act' /\ act' <= act + Z.of_nat (length sp).
Proof.
  unfold scalerTick, scaleUp, spawn, wg_add, Res_bind, maxWorkers, minWorkers,
    Int64.in_range, Int64.min_int, Int64.max_int.
  simpl. intros Hr H. break_match H; injection H as <- <- <- <-; bool_hyps.
  all: repeat match goal with
       | |- context [Int64.add ?x 1] =>
         rewrite (add_small x 1)
           by (unfold Int64.in_range, Int64.min_int, Int64.max_int; lia)
       | H : context [Int64.add ?x 1] |- _ =>
         rewrite (add_small x 1) in H
           by (unfold Int64.in_range, Int64.min_int, Int64.max_int; lia)
       | |- context [Int64.sub ?x 1] =>
         rewrite (sub_small x 1)
           by (unfold Int64.in_range, Int64.min_int, Int64.max_int; lia)
       end; simpl; lia.
Qed.

Lemma tracked_lower cfg s a :
  valid_config cfg -> reachable cfg s -> tracked s = Some a ->
  Z.min (initWorkers cfg) minWorkers <= a /\ a <= Z.of_nat (length (workers s)).
Proof.
  intros Hv Hr. revert a. revert s Hr.
  apply (reachable_ind cfg (fun s => forall a, tracked s = Some a ->
           Z.min (initWorkers cfg) minWorkers <= a /\
           a <= Z.of_nat (length (workers s)))).
  - intros a H. discriminate H.
  - intros ev s s' Hr IH H a Ha.
    pose proof (scaler_reachable cfg s Hv Hr) as Hrange.
    destruct (drain_reachable cfg s Hv Hr) as (Hd & _).
    unfold tracked, inv_scaler in *.
    destruct ev;
      try solve [open_state s; step_cases H;
                 rewrite ?length_insert, ?length_app; simpl;
                 first [ injection Ha as <-; lia | specialize (IH _ Ha); lia ]].
    unfold step in H. destruct (exited s); [discriminate|].
    unfold workerAutoscaler, Res_bind in H.
    destruct (scaler s) as [|wid act|q wid act|] eqn:E; try discriminate.
    + destruct b; [destruct (cancelled (shared s)); [|discriminate]|];
        injection H as <-; simpl in *; try discriminate.
      injection Ha as <-. rewrite app_nil_r. apply IH. reflexivity.
    + destruct (scalerTick q wid act (shared s)) as [[[pc sh'] sp]| |] eqn:Ht;
        try discriminate.
      injection H as <-. simpl in *.
      destruct (scalerTick_inv _ _ _ _ _ _ _ Ht) as (wid' & act' & _ & _ & -> & _).
      injection Ha as <-.
      pose proof (scalerTick_lower _ _ _ _ _ _ _ _ Hrange Ht).
      specialize (IH act eq_refl). rewrite length_app. lia.
Qed.

(** X11. The tracked [activeWorkers] stays between the smaller of the
    initial worker count and [minWorkers] and the larger of the initial
    worker count and [maxWorkers], and it never exceeds the number of workers
    started so far. *)
Theorem tracked_range cfg s a :
  valid_config cfg -> reachable cfg s -> tracked s = Some a ->
  Z.min (initWorkers cfg) minWorkers <= a <= Z.max (initWorkers cfg) maxWorkers /\
  a <= Z.of_nat (length (workers s)).
Proof.
  intros Hv Hr Ha.
  destruct (tracked_lower cfg s a Hv Hr Ha) as [H1 H2].
  pose proof (tracked_bounded cfg s a Hv Hr Ha) as H3.
  repeat split; assumption.
Qed.

Lemma tracked_range_witness :
  Z.min (initWorkers cfg_over) minWorkers <= 20 <= Z.max (initWorkers cfg_over) maxWorkers /\
  20 <= Z.of_nat (length (workers st_over)).
Proof.
  apply (tracked_range cfg_over st_over 20);
    [solve_valid | solve_reachable sched_over | reflexivity].
Defined.

(** ** Worker ids *)

Lemma wrap_add_wrap a b : Int64.wrap (Int64.wrap a + b) = Int64.wrap (a + b).
Proof.
  unfold Int64.wrap. f_equal.
  replace ((a + 2 ^ 63) mod 2 ^ 64 - 2 ^ 63 + b + 2 ^ 63)
    with ((a + 2 ^ 63) mod 2 ^ 64 + b) by lia.
  replace (a + b + 2 ^ 63) with (a + 2 ^ 63 + b) by lia.
  apply Z.add_mod_idemp_l. lia.
Qed.

Lemma scalerTick_ids q wid act sh wid' act' sh' sp :
  scalerTick q wid act sh = Ready (SSelect wid' act', sh', sp) ->
  (sp = [] /\ wid' = wid) \/
  (sp = [mkWorker (Int64.add wid 1) WSelect] /\ wid' = Int64.add wid 1) \/
  (sp = [mkWorker (Int64.add wid 1) WSelect;
         mkWorker (Int64.add (Int64.add wid 1) 1) WSelect] /\
   wid' = Int64.add (Int64.add wid 1) 1).
Proof.
  unfold scalerTick, scaleUp, spawn, wg_add, Res_bind. simpl.
  intros H. break_match H; injection H as <- <- <- <-; simpl; auto.
Qed.

Ltac in_range_lia :=
  unfold Int64.in_range, Int64.min_int, Int64.max_int; lia.

Lemma ids_step cfg ev s s' :
  valid_config cfg -> inv_wiring s -> inv_ids cfg s ->
  step cfg ev s = Ready s' -> inv_ids cfg s'.
Proof.
  intros [[Hv0 Hv1] _] Hw (Hid & Hm & Hsc) H.
  destruct Hw as (_ & _ & _ & _ & _ & _ & _ & Hst & _).
  unfold inv_ids, expected_id, poolSize, Int64.min_int, Int64.max_int in *.
  destruct ev as [| |b|b|b|i b].
  - open_state s; step_cases H; exact (conj Hid (conj Hm Hsc)).
  - open_state s; step_cases H.
    all: destruct scaler0; try discriminate Hst.
    all: bool_hyps.
    all: split; [|split].
    all: try assumption; try exact I.
    all: rewrite ?length_app; simpl; try lia.
    + destruct Hm as [Hm1 Hm2]. intros j w Hj.
      apply lookup_app_Some in Hj as [Hj|[Hl Hj]]; [exact (Hid _ _ Hj)|].
      apply list_lookup_singleton_Some in Hj as [Hz <-]. simpl.
      destruct (Nat.ltb_spec j (Z.to_nat (initWorkers cfg))); lia.
    + destruct Hm as [Hm1 Hm2]. rewrite add_small by in_range_lia. lia.
    + rewrite Hm, Nat.sub_diag. simpl. rewrite Z.add_0_r. symmetry.
      apply wrap_small. in_range_lia.
  - open_state s; step_cases H; exact (conj Hid (conj Hm Hsc)).
  - destruct s as [sh m sg r sc p ws]. unfold step, exited in H. simpl in *.
    destruct (match m with MDone => true | _ => false end); [discriminate|].
    unfold workerAutoscaler, Res_bind in H.
    destruct sc as [|wid act|q wid act|]; try discriminate.
    + destruct b; [destruct (cancelled sh); [|discriminate]|];
        injection H as <-; simpl; rewrite app_nil_r.
      * exact (conj Hid (conj Hm I)).
      * exact (conj Hid (conj Hm Hsc)).
    + destruct (scalerTick q wid act sh) as [[[pc sh'] sp]| |] eqn:Ht;
        try discriminate.
      injection H as <-. simpl.
      destruct (scalerTick_inv _ _ _ _ _ _ _ Ht) as (wid' & act' & _ & _ & -> & _).
      assert (Hpool : (Z.to_nat (initWorkers cfg) <= length ws)%nat)
        by (destruct m; simpl in Hst; try discriminate Hst; exact Hm).
      assert (Hpc : match m with
                    | MStart | MSpawn _ | MScaler => False
                    | _ => True
                    end)
        by (destruct m; simpl in Hst; try discriminate Hst; exact I).
      destruct (scalerTick_ids _ _ _ _ _ _ _ _ Ht)
        as [[-> ->]|[[-> ->]|[-> ->]]]; unfold Int64.add.
      * rewrite app_nil_r. exact (conj Hid (conj Hm Hsc)).
      * rewrite Hsc, !wrap_add_wrap. split; [|split].
        -- intros j w Hj.
           apply lookup_app_Some in Hj as [Hj|[Hl Hj]]; [exact (Hid _ _ Hj)|].
           apply list_lookup_singleton_Some in Hj as [Hz <-]. simpl.
           destruct (Nat.ltb_spec j (Z.to_nat (initWorkers cfg))); [lia|].
           f_equal. lia.
        -- rewrite length_app. destruct m; try contradiction; simpl; lia.
        -- rewrite length_app. simpl. f_equal. lia.
      * rewrite Hsc, !wrap_add_wrap. split; [|split].
        -- intros j w Hj.
           apply lookup_app_Some in Hj as [Hj|[Hl Hj]]; [exact (Hid _ _ Hj)|].
           destruct (Nat.ltb_spec j (Z.to_nat (initWorkers cfg))); [lia|].
           destruct (j - length ws)%nat as [|[|n]] eqn:E; simpl in Hj;
             try discriminate Hj; injection Hj as <-; simpl.
           ++ f_equal. lia.
           ++ rewrite ?wrap_add_wrap. f_equal. lia.
        -- rewrite length_app. destruct m; try contradiction; simpl; lia.
        -- rewrite length_app. simpl. rewrite ?wrap_add_wrap. f_equal. lia.
  - open_state s; step_cases H; exact (conj Hid (conj Hm Hsc)).
  - open_state s; step_cases H.
    all: rewrite ?length_insert.
    all: (split; [|exact (conj Hm Hsc)]).
    all: intros j w Hj.
    all: match goal with
         | Hl : ?ws !! ?k = Some _ |- _ =>
           destruct (decide (j = k)) as [->|Hne];
             [ rewrite list_lookup_insert_eq in Hj by (eapply lookup_lt_Some; exact Hl);
               injection Hj as <-; exact (Hid _ _ Hl)
             | rewrite list_lookup_insert_ne in Hj by congruence;
               exact (Hid _ _ Hj) ]
         end.
Qed.

Lemma ids_reachable cfg s : valid_config cfg -> reachable cfg s -> inv_ids cfg s.
Proof.
  intros Hv. revert s. apply reachable_ind.
  - unfold inv_ids. simpl. repeat split. intros i w H. discriminate H.
  - intros ev s s' Hr IH Hs.
    exact (ids_step cfg ev s s' Hv (wiring_reachable cfg s Hr) IH Hs).
Qed.

Lemma expected_id_small cfg i :
  0 <= initWorkers cfg -> Z.of_nat i < Int64.max_int ->
  expected_id cfg i = if (i <? poolSize cfg)%nat then Z.of_nat i else Z.of_nat i + 1.
Proof.
  unfold expected_id, poolSize, Int64.max_int. intros H0 Hi.
  destruct (Nat.ltb_spec i (Z.to_nat (initWorkers cfg))); [reflexivity|].
  rewrite wrap_small by in_range_lia. lia.
Qed.

(** X12. Worker ids follow the position in the order of the [go]
    statements: the initial pool has the ids 0 to [initialWorkers] - 1 and the
    autoscaler numbers its workers from [initialWorkers] + 1 on, because it
    increments [workerID] before the [go] statement.  So, short of an
    overflow of the counter, no two workers share an id and no worker has the
    id [initialWorkers]. *)
Theorem worker_ids cfg s i w :
  valid_config cfg -> reachable cfg s -> workers s !! i = Some w ->
  w_id w = expected_id cfg i /\
  (0 <= initWorkers cfg -> Z.of_nat (length (workers s)) < Int64.max_int ->
   w_id w <> initWorkers cfg /\
   forall j w', workers s !! j = Some w' -> w_id w' = w_id w -> j = i).
Proof.
  intros Hv Hr Hi. destruct (ids_reachable cfg s Hv Hr) as (Hid & _).
  split; [exact (Hid _ _ Hi)|].
  intros H0 Hlen.
  pose proof (lookup_lt_Some _ _ _ Hi) as Hil.
  rewrite (Hid _ _ Hi), expected_id_small by lia.
  split.
  - unfold poolSize. destruct (Nat.ltb_spec i (Z.to_nat (initWorkers cfg))); lia.
  - intros j w' Hj. pose proof (lookup_lt_Some _ _ _ Hj) as Hjl.
    rewrite (Hid _ _ Hj), expected_id_small by lia.
    unfold poolSize.
    destruct (Nat.ltb_spec i (Z.to_nat (initWorkers cfg))),
             (Nat.ltb_spec j (Z.to_nat (initWorkers cfg))); lia.
Qed.

Lemma worker_ids_witness :
  21 = expected_id cfg_over 20 /\
  (0 <= initWorkers cfg_over -> Z.of_nat (length (workers st_over)) < Int64.max_int ->
   21 <> initWorkers cfg_over /\
   forall j w', workers st_over !! j = Some w' -> w_id w' = 21 -> j = 20%nat).
Proof.
  apply (worker_ids cfg_over st_over 20%nat (mkWorker 21 WSelect));
    [solve_valid | solve_reachable sched_over | reflexivity].
Defined.

(** ** What the output tells *)

Lemma count_lines_app f out1 out2 :
  count_lines f (out1 ++ out2) = (count_lines f out1 + count_lines f out2)%nat.
Proof. induction out1 as [|l out1 IH]; simpl; [reflexivity | rewrite IH; lia]. Qed.

Lemma count_lines_scaler f out :
  (forall l, is_scaler_line l = true -> f l = false) ->
  Forall (fun l => is_scaler_line l = true) out ->
  count_lines f out = O.
Proof.
  intros Hf H. induction H as [|l out Hl _ IH]; simpl; [reflexivity|].
  rewrite (Hf l Hl), IH. reflexivity.
Qed.

Lemma count_lines_errorLines f errs :
  f LSomeErrors = false -> (forall e, f (LError e) = false) ->
  count_lines f (errorLines errs) = O.
Proof.
  intros H1 H2. unfold errorLines. destruct (_ >? 0); [|reflexivity].
  simpl. rewrite H1. simpl.
  induction errs as [|e errs IH]; simpl; [reflexivity|]. rewrite H2, IH. reflexivity.
Qed.

Lemma scalerTick_lines q wid act sh pc sh' sp :
  scalerTick q wid act sh = Ready (pc, sh', sp) ->
  exists printed,
    stdout sh' = stdout sh ++ printed /\
    Forall (fun l => is_scaler_line l = true) printed.
Proof.
  unfold scalerTick, scaleUp, spawn, wg_add, Res_bind. destruct sh. simpl.
  intros H. break_match H; injection H as <- <- <-; unfold print, set_wg; simpl.
  all: rewrite <- ?app_assoc; simpl.
  all: first
    [ exists []; rewrite app_nil_r; split; [reflexivity | constructor]
    | eexists; split; [reflexivity | repeat constructor] ].
Qed.

Lemma output_step cfg ev s s' :
  valid_config cfg -> inv_wiring s -> inv_count cfg s -> inv_return s ->
  inv_output s -> step cfg ev s = Ready s' -> inv_output s'.
Proof.
  intros Hv Hw Hc Hret (Hwalk & Hsig & Hrep & Hdown & Hquiet & Hproc) H.
  pose proof (files_bound cfg Hv) as Hb.
  destruct Hw as (_ & _ & _ & _ & _ & Hctx & Hrs & _).
  destruct Hc as (Hp0 & _ & Hok & _).
  unfold inv_output, inv_return, pending_ok, uncancelled in *.
  destruct ev as [| |b|b|b|i b].
  4: { destruct s as [[c j w mt mu er so] m sg r sc p ws].
       unfold step, exited in H. simpl in *.
       destruct (match m with MDone => true | _ => false end); [discriminate|].
       unfold workerAutoscaler, Res_bind in H.
       destruct sc as [|wid act|q wid act|]; try discriminate.
       - destruct b; [destruct c; [|discriminate]|];
           injection H as <-; simpl; rewrite app_nil_r;
           exact (conj Hwalk (conj Hsig (conj Hrep (conj Hdown (conj Hquiet Hproc))))).
       - destruct (scalerTick q wid act _) as [[[pc sh'] sp]| |] eqn:Ht;
           try discriminate.
         injection H as <-. simpl.
         destruct (scalerTick_lines _ _ _ _ _ _ _ Ht) as (printed & Hpr & Hf).
         destruct (scalerTick_inv _ _ _ _ _ _ _ Ht)
           as (wid' & act' & ids & out & -> & -> & Hsh & _).
         assert (Hz : forall f, (forall l, is_scaler_line l = true -> f l = false) ->
                                count_lines f printed = O)
           by (intros f Hf'; apply count_lines_scaler; assumption).
         rewrite Hpr, !count_lines_app, !Hz by (intros []; simpl; congruence).
         rewrite Hsh, !wcount_app, !wcount_spawned. simpl.
         rewrite !Nat.mul_0_r, !Nat.add_0_r.
         exact (conj Hwalk (conj Hsig (conj Hrep (conj Hdown (conj Hquiet Hproc))))). }
  all: open_state s; step_cases H.
  all: try match goal with
       | Hl : _ !! _ = Some (mkWorker _ _) |- _ =>
         pose proof (wcount_lookup (inflight_ok (fsys cfg)) _ _ _ Hl); simpl in *
       end.
  all: wfacts; rewrite ?count_lines_app; simpl.
  all: rewrite ?count_lines_errorLines by (intros; reflexivity).
  all: rewrite ?add1_small by lia.
  all: repeat match goal with |- _ /\ _ => split end; try lia; try assumption.
  all: try (intros Hu; try discriminate Hu; specialize (Hquiet Hu); try lia).
  all: try (destruct reporter0; try discriminate Hrs; assumption).
  all: try (destruct Hret as [Hret _]; discriminate Hret).
  all: try (rewrite Hu in Hctx; discriminate Hctx).
Qed.

Lemma output_reachable cfg s : valid_config cfg -> reachable cfg s -> inv_output s.
Proof.
  intros Hv. revert s. apply reachable_ind.
  - unfold inv_output. simpl. repeat split; reflexivity.
  - intros ev s s' Hr IH Hs.
    exact (output_step cfg ev s s' Hv (wiring_reachable cfg s Hr)
             (count_reachable cfg s Hv Hr) (return_reachable cfg s Hr) IH Hs).
Qed.

Lemma count_lines_zero f out l :
  count_lines f out = O -> In l out -> f l = false.
Proof.
  induction out as [|x out IH]; simpl; intros Hc Hin; [contradiction|].
  destruct Hin as [<-|Hin].
  - destruct (f x); [discriminate | reflexivity].
  - apply IH; [|exact Hin]. destruct (f x); [discriminate | exact Hc].
Qed.

(** X13. The line for an error of the walk is never printed: the callback
    returns [nil] or the error of the context, so [filepath.Walk] returns
    nothing but [nil] or [context.Canceled]. *)
Theorem walk_error_never_printed cfg s l :
  valid_config cfg -> reachable cfg s ->
  In l (stdout (shared s)) -> is_walk_error l = false.
Proof.
  intros Hv Hr. destruct (output_reachable cfg s Hv Hr) as (H & _).
  exact (count_lines_zero _ _ _ H).
Qed.

Lemma walk_error_never_printed_witness : is_walk_error LShutdownSignal = false.
Proof.
  apply (walk_error_never_printed cfg_stop st_stop LShutdownSignal);
    [solve_valid | solve_reachable sched_stop | vm_compute; auto].
Defined.



Lemma hashed_busy ws : (wcount is_hashed ws <= wcount is_busy ws)%nat.
Proof. apply wcount_le. intros [| |[e|]| | | |]; simpl; lia. Qed.

(** X15. The lines of [processFile] and the counter agree: the number of
    lines with a digest is [processed] plus the number of workers that have
    hashed a file and not yet counted it.  So in a run that completes
    without an interrupt and started with at least one worker there is one
    such line for each readable file. *)
Theorem processed_lines cfg s :
  valid_config cfg -> reachable cfg s ->
  Z.of_nat (count_lines is_processed_line (stdout (shared s)))
    = processed (metrics (shared s)) + Z.of_nat (wcount is_hashed (workers s)) /\
  (1 <= initWorkers cfg -> uncancelled s -> mainPc s = MDone ->
   count_lines is_processed_line (stdout (shared s)) = validFiles cfg).
Proof.
  intros Hv Hr.
  destruct (output_reachable cfg s Hv Hr) as (_ & _ & _ & _ & _ & H).
  split; [exact H|].
  intros Hi Hu Hm.
  destruct (completed_run cfg s Hv Hi Hr Hu Hm) as (Hp & _).
  destruct (drain_reachable cfg s Hv Hr) as (_ & _ & Hpost & _).
  assert (Hpw : post_wait (mainPc s) = true) by (rewrite Hm; reflexivity).
  destruct (Hpost Hu Hpw Hi) as (_ & _ & Hbusy).
  pose proof (hashed_busy (workers s)). lia.
Qed.

Lemma processed_lines_witness :
  count_lines is_processed_line (stdout (shared st_mixed)) = validFiles cfg_mixed.
Proof.
  destruct (processed_lines cfg_mixed st_mixed) as (_ & H);
    [solve_valid | solve_reachable sched_mixed |].
  apply H; [vm_compute; discriminate | reflexivity | reflexivity].
Defined.

(** ** The metrics lines *)

Lemma reports_errorLines p f q errs : Forall (reports p f q) (errorLines errs).
Proof.
  unfold errorLines. destruct (_ >? 0); [|constructor].
  constructor; [exact I|]. induction errs; simpl; constructor; [exact I | assumption].
Qed.

Lemma reports_scaler p f q out :
  Forall (fun l => is_scaler_line l = true) out -> Forall (reports p f q) out.
Proof.
  intros H. eapply Forall_impl; [exact H|]. intros [] Hl; try discriminate Hl; exact I.
Qed.

(** The lines of a step: a metrics line shows the counters and the queue
    length of the state in which the step is taken. *)
Lemma step_reports cfg ev s s' :
  step cfg ev s = Ready s' ->
  exists printed,
    stdout (shared s') = stdout (shared s) ++ printed /\
    Forall (reports (processed (metrics (shared s))) (failed (metrics (shared s)))
                    (chan_len (jobs (shared s)))) printed.
Proof.
  intros H. destruct ev as [| |b|b|b|i b].
  4: { destruct s as [sh m sg r sc p ws]. unfold step, exited in H. simpl in *.
       destruct (match m with MDone => true | _ => false end); [discriminate|].
       unfold workerAutoscaler, Res_bind in H.
       destruct sc as [|wid act|q wid act|]; try discriminate.
       - destruct b; [destruct (cancelled sh); [|discriminate]|];
           injection H as <-; simpl; exists []; rewrite app_nil_r;
           (split; [reflexivity | constructor]).
       - destruct (scalerTick q wid act sh) as [[[pc sh'] sp]| |] eqn:Ht;
           try discriminate.
         injection H as <-. simpl.
         destruct (scalerTick_lines _ _ _ _ _ _ _ Ht) as (printed & Hpr & Hf).
         exists printed. split; [exact Hpr | apply reports_scaler; exact Hf]. }
  all: open_state s; step_cases H.
  all: first
    [ exists []; split; [symmetry; apply app_nil_r | constructor]
    | eexists; split; [reflexivity|] ].
  all: first [ apply reports_errorLines | repeat constructor ].
Qed.

Lemma within_mono p f p' f' l :
  p <= p' -> f <= f' -> within p f l -> within p' f' l.
Proof. destruct l; simpl; intros; try exact I. lia. Qed.

Lemma monotone_weaken p f p' f' out :
  p' <= p -> f' <= f -> monotone p f out -> monotone p' f' out.
Proof.
  revert p f p' f'. induction out as [|l out IH]; intros p f p' f' Hp Hf; simpl;
    [auto|].
  destruct l; try (apply IH; assumption).
  intros (H1 & H2 & H3). repeat split; try lia. exact H3.
Qed.

Lemma monotone_same P F q printed :
  Forall (reports P F q) printed -> monotone P F printed.
Proof.
  induction 1 as [|l printed Hl _ IH]; simpl; [exact I|].
  destruct l; try exact IH.
  destruct Hl as (-> & -> & _). repeat split; try lia. exact IH.
Qed.

Lemma monotone_app p f P F q out printed :
  monotone p f out -> Forall (within P F) out -> p <= P -> f <= F ->
  Forall (reports P F q) printed ->
  monotone p f (out ++ printed).
Proof.
  revert p f. induction out as [|l out IH]; intros p f Hm Hw Hp Hf Hr; simpl.
  - apply (monotone_weaken P F); [assumption | assumption |].
    exact (monotone_same P F q printed Hr).
  - inversion Hw as [|? ? Hl Hw']; subst.
    destruct l; simpl in *; try (apply IH; assumption).
    destruct Hm as (H1 & H2 & H3). repeat split; try assumption.
    apply IH; try assumption; lia.
Qed.

Lemma metrics_step cfg ev s s' :
  valid_config cfg -> reachable cfg s -> inv_metrics s ->
  step cfg ev s = Ready s' -> inv_metrics s'.
Proof.
  intros Hv Hr (Hw & Hm) H.
  destruct (count_reachable cfg s Hv Hr) as (Hp0 & Hf0 & _).
  destruct (wiring_reachable cfg s Hr) as (_ & _ & _ & _ & Hlen & _).
  destruct (step_reports cfg ev s s' H) as (printed & Hpr & Hrep).
  assert (Hmono : processed (metrics (shared s)) <= processed (metrics (shared s')) /\
                  failed (metrics (shared s)) <= failed (metrics (shared s'))).
  { destruct (counters_step cfg ev s s' Hv Hr H) as [->|(i & b & w & r & _ & _ & _ & ->)];
      [lia | destruct r; simpl; lia]. }
  destruct Hmono as [Hmp Hmf].
  unfold inv_metrics. rewrite Hpr. split.
  - apply Forall_app. split.
    + eapply Forall_impl; [exact Hw|]. intros l. apply within_mono; assumption.
    + eapply Forall_impl; [exact Hrep|]. intros [] Hl; simpl in *; try exact I.
      destruct Hl as (-> & -> & ->). unfold chan_len in *. lia.
  - apply (monotone_app 0 0 _ _ _ _ _ Hm Hw Hp0 Hf0 Hrep).
Qed.

(** X16. The metrics lines are sound: each shows counters between zero and
    the present values of [processed] and [failed] and a queue length
    between zero and the capacity 100, and down the output the counters
    shown never decrease. *)
Theorem metrics_lines_monotone cfg s :
  valid_config cfg -> reachable cfg s ->
  Forall (within (processed (metrics (shared s))) (failed (metrics (shared s))))
         (stdout (shared s)) /\
  monotone 0 0 (stdout (shared s)).
Proof.
  intros Hv. revert s. apply reachable_ind.
  - split; [constructor | exact I].
  - intros ev s s' Hr IH Hs. exact (metrics_step cfg ev s s' Hv Hr IH Hs).
Qed.

Lemma metrics_lines_monotone_witness :
  Forall (within (processed (metrics (shared st_mixed)))
                 (failed (metrics (shared st_mixed))))
         (stdout (shared st_mixed)) /\
  monotone 0 0 (stdout (shared st_mixed)).
Proof.
  apply (metrics_lines_monotone cfg_mixed st_mixed);
    [solve_valid | solve_reachable sched_mixed].
Defined.

(** ** The order of the [go] statements *)

(** X17. [main] starts the goroutines in the order of its [go] statements:
    the walker runs only when the autoscaler runs, the autoscaler only when
    the reporter runs and the whole initial pool has been started, and until
    the autoscaler is started there are no workers but those of the pool,
    [initialWorkers] of them at most (none for a count below one). *)
Theorem startup_order cfg s :
  valid_config cfg -> reachable cfg s ->
  (producer s <> PNotStarted -> scaler s <> SNotStarted) /\
  (scaler s <> SNotStarted ->
   reporter s <> RNotStarted /\ (poolSize cfg <= length (workers s))%nat) /\
  (scaler s = SNotStarted ->
   (length (workers s) <= poolSize cfg)%nat /\
   forall i w, workers s !! i = Some w -> w_id w = Z.of_nat i).
Proof.
  intros Hv Hr.
  destruct (wiring_reachable cfg s Hr) as (_ & _ & _ & _ & _ & _ & Hrs & Hss & Hps).
  destruct (ids_reachable cfg s Hv Hr) as (Hid & Hm & _).
  split; [|split].
  - intros Hp Hs. rewrite Hs in Hss.
    destruct (producer s); [contradiction| | |];
      destruct (mainPc s); discriminate.
  - intros Hs.
    assert (Hst : scaler_started (mainPc s) = true)
      by (rewrite <- Hss; destruct (scaler s); [contradiction| | |]; reflexivity).
    split.
    + intros Hrn. rewrite Hrn in Hrs. destruct (mainPc s); discriminate.
    + destruct (mainPc s); try discriminate Hst; exact Hm.
  - intros Hs. rewrite Hs in Hss.
    assert (Hle : (length (workers s) <= poolSize cfg)%nat)
      by (destruct (mainPc s); try discriminate Hss; lia).
    split; [exact Hle|].
    intros i w Hi. rewrite (Hid i w Hi). unfold expected_id.
    pose proof (lookup_lt_Some _ _ _ Hi) as Hlt.
    destruct (Nat.ltb_spec i (poolSize cfg)); [reflexivity | lia].
Qed.

Lemma startup_order_witness :
  reporter st_gone <> RNotStarted /\ (poolSize cfg_mixed <= length (workers st_gone))%nat.
Proof.
  destruct (startup_order cfg_mixed st_gone) as (_ & H & _);
    [solve_valid | solve_reachable (startup 2 ++ repeat (EvProducer CaseComm) 4) |].
  apply H. discriminate.
Defined.
